(** * Masked mean pooling, the two forward passes and the training step

    A shallow embedding of the two notebooks of the repository:
    [SentenceTransformer] (embedding only) and
    [SentenceClassificationTransformer] (embedding followed by a linear
    classification head and one optimizer step).

    The numerical library is modelled at the level the notebooks use it:
    a tensor is a strided view (storage id, offset, size, stride) on a
    store of flat storages; [unsqueeze] and [expand] return views on the
    same storage, every arithmetic operation allocates a fresh contiguous
    storage.  Scalars are kept abstract behind [scalar_ops]: the theorems
    on shapes, errors and the store hold for every scalar type, the
    theorems on values are stated on IEEE binary32 ([F32], the dtype of
    the encoder's hidden states).  The attention mask is an int64 tensor,
    as the tokenizer returns it. *)

From Stdlib Require Import String List ZArith QArith Lia Bool SpecFloat.
Import ListNotations.

Set Implicit Arguments.
Local Open Scope nat_scope.

(** ** Scalars *)

Record scalar_ops (F : Type) : Type := {
  f_zero : F;
  f_add : F -> F -> F;
  f_mul : F -> F -> F;
  f_div : F -> F -> F;
  f_ltb : F -> F -> bool;
  f_of_long : Z -> F;      (* int64 -> floating dtype, on type promotion *)
  f_1e_9 : F               (* the Python literal 1e-9 in the floating dtype *)
}.

(** int64 arithmetic wraps around. *)
Definition wrap64 (z : Z) : Z := ((z + 2 ^ 63) mod 2 ^ 64 - 2 ^ 63)%Z.

(** The two dtypes of the notebooks: the encoder's float32 hidden states
    and the tokenizer's int64 mask.  Other dtypes are outside the model. *)
Inductive dtype := Float32 | Int64.

Definition promote (a b : dtype) : dtype :=
  match a, b with
  | Int64, Int64 => Int64
  | _, _ => Float32
  end.

(** ** Errors and the store monad *)

Inductive exn := RuntimeError | IndexError.

Section Torch.

Variable F : Type.
Variable ops : scalar_ops F.

Inductive elem := EF (x : F) | EL (z : Z).

Definition heap := list (list elem).

Record tensor := mkTensor {
  t_dtype : dtype;
  t_storage : nat;
  t_offset : nat;
  t_size : list nat;
  t_stride : list nat
}.

Inductive result (A : Type) :=
| Ok (a : A) (h : heap)
| Raise (e : exn).
Arguments Raise {A} e.

Definition M (A : Type) := heap -> result A.

Definition ret {A} (a : A) : M A := fun h => Ok a h.
Definition raise {A} (e : exn) : M A := fun _ => Raise e.
Definition bind {A B} (m : M A) (k : A -> M B) : M B :=
  fun h => match m h with
           | Ok a h' => k a h'
           | Raise e => Raise e
           end.

Notation "x <- m ;; k" := (bind m (fun x => k))
  (at level 61, m at next level, right associativity).

(** ** Element arithmetic with type promotion *)

Definition as_float (e : elem) : F :=
  match e with EF x => x | EL z => f_of_long ops z end.

Definition ezero (dt : dtype) : elem :=
  match dt with Float32 => EF (f_zero ops) | Int64 => EL 0%Z end.

Definition eadd (a b : elem) : elem :=
  match a, b with
  | EL x, EL y => EL (wrap64 (x + y))
  | _, _ => EF (f_add ops (as_float a) (as_float b))
  end.

Definition emul (a b : elem) : elem :=
  match a, b with
  | EL x, EL y => EL (wrap64 (x * y))
  | _, _ => EF (f_mul ops (as_float a) (as_float b))
  end.

(** [/] is true division: two integer operands give a float. *)
Definition ediv (a b : elem) : elem :=
  EF (f_div ops (as_float a) (as_float b)).

(** [clamp(min=m)] with a Python float [m]: an integer tensor is promoted
    to the floating dtype; a NaN entry stays NaN (the comparison is false). *)
Definition eclamp_min (m : F) (a : elem) : elem :=
  let x := as_float a in
  EF (if f_ltb ops x m then m else x).

(** ** Indexing a strided view *)

Fixpoint in_rangeb (idx sz : list nat) : bool :=
  match idx, sz with
  | [], [] => true
  | i :: idx', n :: sz' => (i <? n) && in_rangeb idx' sz'
  | _, _ => false
  end.

Fixpoint offset_of (idx st : list nat) : nat :=
  match idx, st with
  | i :: idx', s :: st' => i * s + offset_of idx' st'
  | _, _ => 0
  end.

Definition item (h : heap) (t : tensor) (idx : list nat) : option elem :=
  if in_rangeb idx (t_size t) then
    match nth_error h (t_storage t) with
    | Some cells => nth_error cells (t_offset t + offset_of idx (t_stride t))
    | None => None
    end
  else None.

(** All indices of a shape, in row-major order. *)
Fixpoint indices (sz : list nat) : list (list nat) :=
  match sz with
  | [] => [[]]
  | n :: sz' => flat_map (fun i => map (cons i) (indices sz')) (seq 0 n)
  end.

(** Strides of a freshly allocated tensor: the product of the later
    sizes, a size 0 counting as 1. *)
Definition numel1 (sz : list nat) : nat :=
  fold_right (fun m acc => Nat.max m 1 * acc) 1 sz.

Fixpoint contiguous_stride (sz : list nat) : list nat :=
  match sz with
  | [] => []
  | _ :: sz' => numel1 sz' :: contiguous_stride sz'
  end.

Definition alloc (dt : dtype) (sz : list nat) (cells : list elem) : M tensor :=
  fun h => Ok (mkTensor dt (length h) 0 sz (contiguous_stride sz)) (h ++ [cells]).

Fixpoint traverse {A B} (f : A -> option B) (l : list A) : option (list B) :=
  match l with
  | [] => Some []
  | a :: l' =>
      match f a, traverse f l' with
      | Some b, Some bs => Some (b :: bs)
      | _, _ => None
      end
  end.

(** ** Views: [unsqueeze] and [expand] *)

(** [t.unsqueeze(dim)]: a view with a dimension of size 1 inserted;
    a negative [dim] counts from the end. *)
Definition unsqueeze (t : tensor) (dim : Z) : M tensor :=
  let n := Z.of_nat (length (t_size t)) in
  if ((dim <? - (n + 1)) || (n <? dim))%Z then raise IndexError
  else
    let d := Z.to_nat (if (dim <? 0)%Z then dim + n + 1 else dim)%Z in
    let st := match nth_error (t_size t) d, nth_error (t_stride t) d with
              | Some s, Some k => s * k
              | _, _ => 1
              end in
    ret (mkTensor (t_dtype t) (t_storage t) (t_offset t)
           (firstn d (t_size t) ++ 1 :: skipn d (t_size t))
           (firstn d (t_stride t) ++ st :: skipn d (t_stride t))).

Fixpoint expand_aligned (sz st target : list nat) : option (list nat) :=
  match sz, st, target with
  | [], [], [] => Some []
  | s :: sz', k :: st', tg :: target' =>
      match expand_aligned sz' st' target' with
      | Some r =>
          if s =? tg then Some (k :: r)
          else if s =? 1 then Some (0 :: r)
          else None
      | None => None
      end
  | _, _, _ => None
  end.

(** [t.expand(target)]: a view of the same storage; a dimension of size 1
    is repeated with stride 0, new leading dimensions likewise; any other
    disagreement of sizes raises.  (For a new leading dimension of size 1
    the library records another stride; only index 0 goes through it, so
    no entry depends on it.) *)
Definition expand (t : tensor) (target : list nat) : M tensor :=
  let n := length (t_size t) in
  let m := length target in
  if m <? n then raise RuntimeError
  else
    match expand_aligned (t_size t) (t_stride t) (skipn (m - n) target) with
    | Some st => ret (mkTensor (t_dtype t) (t_storage t) (t_offset t) target
                        (repeat 0 (m - n) ++ st))
    | None => raise RuntimeError
    end.

(** ** Arithmetic: every result is freshly allocated *)

Fixpoint broadcast_aligned (a b : list nat) : option (list nat) :=
  match a, b with
  | [], [] => Some []
  | x :: a', y :: b' =>
      match broadcast_aligned a' b' with
      | Some r =>
          if x =? y then Some (x :: r)
          else if x =? 1 then Some (y :: r)
          else if y =? 1 then Some (x :: r)
          else None
      | None => None
      end
  | _, _ => None
  end.

Definition pad_left (n : nat) (sz : list nat) : list nat :=
  repeat 1 (n - length sz) ++ sz.

Definition broadcast_shapes (a b : list nat) : option (list nat) :=
  let n := Nat.max (length a) (length b) in
  broadcast_aligned (pad_left n a) (pad_left n b).

Definition map2_tensor (f : elem -> elem -> elem) (dt : dtype)
    (a b : tensor) : M tensor :=
  fun h =>
    match traverse (fun idx => match item h a idx, item h b idx with
                               | Some x, Some y => Some (f x y)
                               | _, _ => None
                               end) (indices (t_size a)) with
    | Some cells => alloc dt (t_size a) cells h
    | None => Raise RuntimeError
    end.

Definition binary (f : elem -> elem -> elem) (dt : dtype)
    (a b : tensor) : M tensor :=
  match broadcast_shapes (t_size a) (t_size b) with
  | None => raise RuntimeError
  | Some sz =>
      a' <- expand a sz ;;
      b' <- expand b sz ;;
      map2_tensor f dt a' b'
  end.

(** [a * b] *)
Definition mul (a b : tensor) : M tensor :=
  binary emul (promote (t_dtype a) (t_dtype b)) a b.

(** [a / b] *)
Definition div (a b : tensor) : M tensor :=
  binary ediv Float32 a b.

(** [torch.sum(t, d)] and [t.sum(d)]: the dimension [d] is reduced away;
    an int64 tensor is summed in int64.  The library does not fix the
    order of the additions; here they run from position 0 upwards,
    starting from zero. *)
Definition sum_dim (t : tensor) (d : nat) : M tensor :=
  fun h =>
    match nth_error (t_size t) d with
    | None => Raise IndexError
    | Some n =>
        let out_sz := firstn d (t_size t) ++ skipn (S d) (t_size t) in
        match traverse
                (fun idx =>
                   fold_left
                     (fun acc k =>
                        match acc, item h t (firstn d idx ++ k :: skipn d idx) with
                        | Some a, Some x => Some (eadd a x)
                        | _, _ => None
                        end)
                     (seq 0 n) (Some (ezero (t_dtype t))))
                (indices out_sz) with
        | Some cells => alloc (t_dtype t) out_sz cells h
        | None => Raise RuntimeError
        end
    end.

(** [torch.clamp(t, min=m)] *)
Definition clamp_min (t : tensor) (m : F) : M tensor :=
  fun h =>
    match traverse (fun idx => option_map (eclamp_min m) (item h t idx))
            (indices (t_size t)) with
    | Some cells => alloc Float32 (t_size t) cells h
    | None => Raise RuntimeError
    end.

(** ** [mean_pooling], as in both notebooks *)

Definition mean_pooling (token_embeddings attention_mask : tensor) : M tensor :=
  unsqueezed <- unsqueeze attention_mask (-1) ;;
  input_mask_expanded <- expand unsqueezed (t_size token_embeddings) ;;
  masked <- mul token_embeddings input_mask_expanded ;;
  sum_embeddings <- sum_dim masked 1 ;;
  mask_counts <- sum_dim input_mask_expanded 1 ;;
  sum_mask <- clamp_min mask_counts (f_1e_9 ops) ;;
  div sum_embeddings sum_mask.

(** ** [nn.Linear]: [x] of shape (n, k), [weight] of shape (c, k) and
    [bias] of shape (c) give [x . weight^T + bias] of shape (n, c); the
    products are added from feature 0 upwards, the bias last *)

Definition linear (x weight bias : tensor) : M tensor :=
  fun h =>
    match t_size x, t_size weight, t_size bias with
    | [n; k], [c; k'], [c'] =>
        if (k =? k') && (c =? c') then
          let dt := promote (promote (t_dtype x) (t_dtype weight)) (t_dtype bias) in
          match traverse
                  (fun idx =>
                     let i := nth 0 idx 0 in
                     let o := nth 1 idx 0 in
                     match fold_left
                             (fun acc l =>
                                match acc, item h x [i; l], item h weight [o; l] with
                                | Some a, Some u, Some v => Some (eadd a (emul u v))
                                | _, _, _ => None
                                end)
                             (seq 0 k)
                             (Some (ezero (promote (t_dtype x) (t_dtype weight)))),
                           item h bias [o] with
                     | Some dot, Some bo => Some (eadd dot bo)
                     | _, _ => None
                     end)
                  (indices [n; c]) with
          | Some cells => alloc dt [n; c] cells h
          | None => Raise RuntimeError
          end
        else Raise RuntimeError
    | _, _, _ => Raise RuntimeError
    end.

(** ** Vocabulary of the specifications *)

(** A view has one stride per dimension. *)
Definition wf (t : tensor) : Prop := length (t_stride t) = length (t_size t).

(** [reads h t g]: in store [h] the view [t] holds [g idx] at every
    index [idx] of its shape. *)
Definition reads (h : heap) (t : tensor) (g : list nat -> elem) : Prop :=
  forall idx, in_rangeb idx (t_size t) = true -> item h t idx = Some (g idx).

(** The index an expanded view reads in the view it was expanded from. *)
Fixpoint unexpand (sz idx : list nat) : list nat :=
  match sz, idx with
  | s :: sz', i :: idx' => (if s =? 1 then 0 else i) :: unexpand sz' idx'
  | _, _ => []
  end.

(** Sizes [sz] can be expanded to [target] (same rank): each size agrees
    with the target or is 1. *)
Fixpoint expandableb (sz target : list nat) : bool :=
  match sz, target with
  | [], [] => true
  | s :: sz', tg :: target' => ((s =? tg) || (s =? 1)) && expandableb sz' target'
  | _, _ => false
  end.

(** The mask entry that row [b], position [t] of the expanded mask reads. *)
Definition mask_index (Bm Tm b t : nat) : list nat :=
  [if Bm =? 1 then 0 else b; if Tm =? 1 then 0 else t].

(** The entry [mean_pooling] computes at row [b], column [j], in terms of
    the entries [gE] of the embeddings and [gM] of the mask: the two sums
    run over the sequence positions from 0 upwards. *)
Definition pooled_entry (dE dM : dtype) (gE gM : list nat -> elem)
    (Bm Tm T b j : nat) : elem :=
  ediv
    (fold_left (fun acc t => eadd acc (emul (gE [b; t; j]) (gM (mask_index Bm Tm b t))))
       (seq 0 T) (ezero (promote dE dM)))
    (eclamp_min (f_1e_9 ops)
       (fold_left (fun acc t => eadd acc (gM (mask_index Bm Tm b t)))
          (seq 0 T) (ezero dM))).

(** [holds_floats h t e]: [t] is a float32 tensor of store [h] with
    entries [e]; [holds_longs h t m]: an int64 tensor with entries [m]. *)
Definition holds_floats (h : heap) (t : tensor) (e : list nat -> F) : Prop :=
  wf t /\ t_dtype t = Float32 /\ reads h t (fun idx => EF (e idx)).

Definition holds_longs (h : heap) (t : tensor) (m : list nat -> Z) : Prop :=
  wf t /\ t_dtype t = Int64 /\ reads h t (fun idx => EL (m idx)).

(** A tensor of any dtype whose every index can be read in [h]. *)
Definition valid (h : heap) (t : tensor) : Prop :=
  wf t /\ forall idx, in_rangeb idx (t_size t) = true -> item h t idx <> None.

Definition contents (h : heap) (t : tensor) (idx : list nat) : elem :=
  match item h t idx with
  | Some e => e
  | None => EL 0%Z
  end.

(** The float, resp. integer, stored at an index (0 elsewhere). *)
Definition float_at (h : heap) (t : tensor) (idx : list nat) : F :=
  match item h t idx with
  | Some (EF x) => x
  | _ => f_zero ops
  end.

Definition long_at (h : heap) (t : tensor) (idx : list nat) : Z :=
  match item h t idx with
  | Some (EL z) => z
  | _ => 0%Z
  end.

End Torch.

Arguments Raise {F A} e.
Arguments EL {F} z.
Arguments EF {F} x.

(** ** The two scalar instances *)

(** IEEE binary32 with round-to-nearest-even, on the specification
    floats of the standard library. *)
Module F32.

Definition prec : Z := 24.
Definition emax : Z := 128.

(** The binary32 number nearest to 1e-9: 9007199 * 2^-53. *)
Definition eps : spec_float := S754_finite false 9007199 (-53).

Definition ops : scalar_ops spec_float := {|
  f_zero := S754_zero false;
  f_add := SFadd prec emax;
  f_mul := SFmul prec emax;
  f_div := SFdiv prec emax;
  f_ltb := SFltb;
  f_of_long := fun z => binary_normalize prec emax z 0 false;
  f_1e_9 := eps
|}.

Definition is_nan (x : spec_float) : bool :=
  match x with S754_nan => true | _ => false end.

Definition is_inf (x : spec_float) : bool :=
  match x with S754_infinity _ => true | _ => false end.

Definition is_finite (x : spec_float) : bool :=
  negb (is_nan x) && negb (is_inf x).





End F32.

(** A second scalar type, the rationals, on which the theorems that hold
    for every scalar type are run on samples with readable numbers.  It is
    not the arithmetic of the notebooks: no theorem on values rests on it. *)
Module Exact.

Definition ops : scalar_ops Q := {|
  f_zero := 0%Q;
  f_add := Qplus;
  f_mul := Qmult;
  f_div := Qdiv;
  f_ltb := fun x y => negb (Qle_bool y x);
  f_of_long := inject_Z;
  f_1e_9 := (1 # 1000000000)%Q
|}.

End Exact.

(** ** The notebooks *)

(** What the tokenizer returns. *)
Record batch := mkBatch { input_ids : tensor; attention_mask : tensor }.

(** The statements of the training step, as they are logged. *)
Inductive event := EvForward | EvLoss | EvZeroGrad | EvBackward | EvStep.

Section Notebooks.

Variable F : Type.
Variable ops : scalar_ops F.

Notation "x <- m ;; k" := (bind m (fun x => k))
  (at level 61, m at next level, right associativity).

(** The external collaborators: the pre-trained encoder with its weights
    [Theta], and its tokenizer (called with [padding=True],
    [truncation=True], [return_tensors="pt"]). *)
Variable Theta : Type.
Variable tokenizer : list string -> M F batch.
Variable encoder : Theta -> batch -> M F tensor.

(** [SentenceTransformer.forward] *)
Definition SentenceTransformer_forward (theta : Theta)
    (sentences : list string) : M F tensor :=
  inputs <- tokenizer sentences ;;
  last_hidden_state <- encoder theta inputs ;;
  sentence_embeddings <-
    mean_pooling ops last_hidden_state (attention_mask inputs) ;;
  ret sentence_embeddings.

(** [SentenceClassificationTransformer.forward]; [weight] and [bias] are
    the parameters of [self.classifier]. *)
Definition SentenceClassificationTransformer_forward (theta : Theta)
    (weight bias : tensor) (sentences : list string) : M F tensor :=
  inputs <- tokenizer sentences ;;
  last_hidden_state <- encoder theta inputs ;;
  pooled_output <-
    mean_pooling ops last_hidden_state (attention_mask inputs) ;;
  class_logits <- linear ops pooled_output weight bias ;;
  ret class_logits.

(** Two outcomes of a forward pass are the same when both raise the same
    error or both return tensors of one shape with equal entries. *)
Definition same_outcome (r1 r2 : result F tensor) : Prop :=
  match r1, r2 with
  | Ok S1 h1, Ok S2 h2 =>
      t_size S1 = t_size S2 /\ forall idx, item h1 S1 idx = item h2 S2 idx
  | Raise e1, Raise e2 => e1 = e2
  | _, _ => False
  end.

(** The collaborators' contract: for given weights and sentences, the
    tokenizer followed by the encoder either raises the same error in
    every store, or returns in every store hidden states of one shape
    (B, T, H) and a mask of shape (B, T) with the same entries. *)
Definition encode (theta : Theta) (sentences : list string)
    : M F (tensor * tensor) :=
  inputs <- tokenizer sentences ;;
  last_hidden_state <- encoder theta inputs ;;
  ret (last_hidden_state, attention_mask inputs).

Definition deterministic_collaborators : Prop :=
  forall theta sentences,
    (exists e, forall h, encode theta sentences h = Raise e) \/
    (exists B T H dE dM (gE gM : list nat -> elem F),
       forall h, exists E Mk h',
         encode theta sentences h = Ok (E, Mk) h' /\
         wf E /\ t_size E = [B; T; H] /\ t_dtype E = dE /\ reads h' E gE /\
         wf Mk /\ t_size Mk = [B; T] /\ t_dtype Mk = dM /\ reads h' Mk gM).

(** *** The training step *)

(** More collaborators: the loss, automatic differentiation and the
    optimizer.  [G] holds one gradient per parameter, [O] the optimizer's
    own state. *)
Variable G O : Type.
Variable classification_loss_fn : tensor -> list Z -> M F tensor.
Variable autograd : Theta -> heap F -> tensor -> G.
Variable accumulate : option G -> G -> G.
Variable adamw : option G -> O -> Theta -> heap F -> O * Theta * heap F.

Record trainer := mkTrainer {
  tr_theta : Theta;          (* the encoder's weights *)
  tr_heap : heap F;          (* the tensors, the classifier's parameters included *)
  tr_grads : option G;       (* the accumulated [.grad]s; [None] when cleared *)
  tr_opt : O;
  tr_trace : list event
}.

Definition Step (A : Type) := trainer -> exn + A * trainer.

Definition tret {A} (a : A) : Step A := fun s => inr (a, s).
Definition tbind {A B} (m : Step A) (k : A -> Step B) : Step B :=
  fun s => match m s with
           | inl e => inl e
           | inr (a, s') => k a s'
           end.

Notation "x <~ m ;; k" := (tbind m (fun x => k))
  (at level 61, m at next level, right associativity).

Definition logged (ev : event) (s : trainer) : trainer :=
  mkTrainer (tr_theta s) (tr_heap s) (tr_grads s) (tr_opt s) (tr_trace s ++ [ev]).

(** Running a tensor computation on the trainer's store. *)
Definition lift {A} (ev : event) (m : M F A) : Step A :=
  fun s => match m (tr_heap s) with
           | Raise e => inl e
           | Ok a h =>
               inr (a, logged ev (mkTrainer (tr_theta s) h (tr_grads s)
                                    (tr_opt s) (tr_trace s)))
           end.

(** [sentence_classification_model(sample_sentences)] *)
Definition model_call (weight bias : tensor) (sentences : list string) : Step tensor :=
  fun s => lift EvForward
             (SentenceClassificationTransformer_forward (tr_theta s) weight bias
                sentences) s.

(** [optimizer.zero_grad()] *)
Definition zero_grad : Step unit :=
  fun s => inr (tt, logged EvZeroGrad
                      (mkTrainer (tr_theta s) (tr_heap s) None (tr_opt s)
                         (tr_trace s))).

(** [loss.backward()]: the gradients are added to the accumulated ones. *)
Definition backward (loss : tensor) : Step unit :=
  fun s =>
    let g := accumulate (tr_grads s) (autograd (tr_theta s) (tr_heap s) loss) in
    inr (tt, logged EvBackward
               (mkTrainer (tr_theta s) (tr_heap s) (Some g) (tr_opt s)
                  (tr_trace s))).

(** [optimizer.step()]: the parameters are updated in place from the
    accumulated gradients. *)
Definition optimizer_step : Step unit :=
  fun s =>
    let '(o, theta, h) := adamw (tr_grads s) (tr_opt s) (tr_theta s) (tr_heap s) in
    inr (tt, logged EvStep (mkTrainer theta h (tr_grads s) o (tr_trace s))).

(** The training step of the classification notebook. *)
Definition training_step (weight bias : tensor)
    (sample_sentences : list string) (sentence_labels : list Z)
    : Step (tensor * tensor) :=
  class_logits <~ model_call weight bias sample_sentences ;;
  classification_loss <~
    lift EvLoss (classification_loss_fn class_logits sentence_labels) ;;
  _ <~ zero_grad ;;
  _ <~ backward classification_loss ;;
  _ <~ optimizer_step ;;
  tret (class_logits, classification_loss).

(** The order the specification gives for one step. *)
Definition spec_step_order : list event :=
  [EvForward; EvLoss; EvBackward; EvStep; EvZeroGrad].

End Notebooks.

(** ** Sample tensors: two sentences, three positions, hidden size two *)

Module Sample.

Definition embeddings : tensor := mkTensor Float32 0 0 [2; 3; 2] [6; 2; 1].
Definition mask : tensor := mkTensor Int64 1 0 [2; 3] [3; 1].

(** A mask of shape (1, 3) and one of shape (2, 2), on the same storage. *)
Definition mask_one_row : tensor := mkTensor Int64 1 0 [1; 3] [3; 1].
Definition mask_short : tensor := mkTensor Int64 1 0 [2; 2] [2; 1].

Definition mask_cells (F : Type) (bits : list Z) : list (elem F) :=
  map (@EL F) bits.

(** Store over the rationals: the second sentence has one padding position. *)
Definition store_q : heap Q :=
  [ map (fun z => EF (inject_Z z)) [1; 2; 3; 4; 5; 6; 7; 8; 9; 10; 11; 12]%Z;
    mask_cells Q [1; 1; 1; 1; 1; 0]%Z ].

(** binary32 store: the second sentence is all padding. *)
Definition store_f : heap spec_float :=
  [ map (fun z => EF (f_of_long F32.ops z))
      [1; -2; 3; 4; 5; 6; 7; -8; 9; 10; 11; 12]%Z;
    mask_cells spec_float [1; 1; 0; 0; 0; 0]%Z ].

(** The sample of both notebooks. *)
Definition sample_sentences : list string :=
  [ "This is a test sentence."%string;
    "Sentence transformers generate embeddings."%string ].
Definition sentence_labels : list Z := [0; 1]%Z.

(** Stubs for the external collaborators, with synthetic values: a
    character-level tokenizer padding to the longest sentence, an
    encoder of hidden size 2, a loss, gradients and an optimizer that
    only keep count. *)
Section Stubs.

Variable F : Type.
Variable ops : scalar_ops F.

Definition token_id (sentences : list string) (idx : list nat) : Z :=
  match String.get (nth 1 idx 0) (nth (nth 0 idx 0) sentences EmptyString) with
  | Some c => Z.of_nat (Ascii.nat_of_ascii c)
  | None => 0%Z
  end.

Definition token_mask (sentences : list string) (idx : list nat) : Z :=
  if nth 1 idx 0 <? String.length (nth (nth 0 idx 0) sentences EmptyString)
  then 1%Z else 0%Z.

Definition stub_tokenizer (sentences : list string) : M F batch :=
  let sz := [length sentences;
             fold_right Nat.max 0 (map String.length sentences)] in
  bind (alloc Int64 sz (map (fun idx => EL (token_id sentences idx)) (indices sz)))
    (fun ids =>
  bind (alloc Int64 sz (map (fun idx => EL (token_mask sentences idx)) (indices sz)))
    (fun mask => ret (mkBatch ids mask))).

Definition stub_hidden (theta : Z) (idx : list nat) : elem F :=
  EF (f_of_long ops (theta + Z.of_nat (list_sum idx))).

Definition stub_encoder (theta : Z) (inputs : batch) : M F tensor :=
  let sz := t_size (input_ids inputs) ++ [2] in
  alloc Float32 sz (map (stub_hidden theta) (indices sz)).

Definition stub_loss (logits : tensor) (labels : list Z) : M F tensor :=
  alloc Float32 [] [EF (f_zero ops)].

Definition stub_autograd (theta : Z) (h : heap F) (loss : tensor) : Z := 1%Z.

Definition stub_accumulate (acc : option Z) (g : Z) : Z :=
  match acc with Some a => (a + g)%Z | None => g end.

Definition stub_adamw (g : option Z) (o : nat) (theta : Z) (h : heap F)
    : nat * Z * heap F :=
  (S o, match g with Some d => (theta - d)%Z | None => theta end, h).

End Stubs.

(** A classification head with 3 classes on hidden size 2, in a store
    that holds nothing else. *)
Definition weight : tensor := mkTensor Float32 0 0 [3; 2] [2; 1].
Definition bias : tensor := mkTensor Float32 1 0 [3] [1].
Definition store_head : heap Q :=
  [ map (fun z => EF (inject_Z z)) [1; 0; 0; 1; 1; 1]%Z;
    map (fun z => EF (inject_Z z)) [0; 1; 2]%Z ].

(** A trainer that already carries a gradient from an earlier
    [backward]. *)
Definition trainer0 : trainer Q Z Z nat :=
  mkTrainer 5%Z store_head (Some 7%Z) 0 [].

(** The two forward passes and the loss on the sample, evaluated. *)
Definition embedding_run : tensor * heap Q :=
  Eval vm_compute in
    match SentenceTransformer_forward Exact.ops (@stub_tokenizer Q)
            (stub_encoder Exact.ops) 5%Z sample_sentences store_head with
    | Ok t h => (t, h)
    | Raise _ => (embeddings, [])
    end.

Definition logits_run : tensor * heap Q :=
  Eval vm_compute in
    match SentenceClassificationTransformer_forward Exact.ops (@stub_tokenizer Q)
            (stub_encoder Exact.ops) 5%Z weight bias sample_sentences store_head with
    | Ok t h => (t, h)
    | Raise _ => (embeddings, [])
    end.

Definition loss_run : tensor * heap Q :=
  Eval vm_compute in
    match stub_loss Exact.ops (fst logits_run) sentence_labels (snd logits_run) with
    | Ok t h => (t, h)
    | Raise _ => (embeddings, [])
    end.

End Sample.

(** ** Constructing the models and calling them *)

Section Construction.

Variable F : Type.
Variable ops : scalar_ops F.

Notation "x <- m ;; k" := (bind m (fun x => k))
  (at level 61, m at next level, right associativity).

(** The collaborators of [__init__]: [AutoModel.from_pretrained] (the
    encoder's weights), the encoder's [config.hidden_size],
    [AutoTokenizer.from_pretrained], the encoder's call, and the values
    [nn.Linear] draws for its parameters. *)
Variable Theta : Type.
Variable AutoModel_from_pretrained : string -> Theta.
Variable hidden_size : Theta -> nat.
Variable AutoTokenizer_from_pretrained : string -> list string -> M F batch.
Variable encoder : Theta -> batch -> M F tensor.
Variable init_weight init_bias : list nat -> F.

(** [nn.Linear(in_features, out_features)]: a weight of shape
    (out_features, in_features) and a bias of shape (out_features). *)
Definition nn_Linear (in_features out_features : nat) : M F (tensor * tensor) :=
  weight <- alloc Float32 [out_features; in_features]
              (map (fun idx => EF (init_weight idx))
                 (indices [out_features; in_features])) ;;
  bias <- alloc Float32 [out_features]
            (map (fun idx => EF (init_bias idx)) (indices [out_features])) ;;
  ret (weight, bias).

Record SentenceTransformer := mkSentenceTransformer {
  st_encoder : Theta;
  st_tokenizer : list string -> M F batch
}.

(** [SentenceTransformer.__init__] *)
Definition SentenceTransformer_init (model_name : string) : M F SentenceTransformer :=
  ret (mkSentenceTransformer (AutoModel_from_pretrained model_name)
         (AutoTokenizer_from_pretrained model_name)).

(** [self.pooling = nn.AdaptiveAvgPool1d(1)] holds no state and is never
    called; it has no field here. *)
Record SentenceClassificationTransformer := mkSentenceClassificationTransformer {
  sct_encoder : Theta;
  sct_tokenizer : list string -> M F batch;
  sct_classifier : tensor * tensor
}.

(** [SentenceClassificationTransformer.__init__] *)
Definition SentenceClassificationTransformer_init (model_name : string)
    (num_classes : nat) : M F SentenceClassificationTransformer :=
  let encoder_weights := AutoModel_from_pretrained model_name in
  classifier <- nn_Linear (hidden_size encoder_weights) num_classes ;;
  ret (mkSentenceClassificationTransformer encoder_weights
         (AutoTokenizer_from_pretrained model_name) classifier).

(** The cell of the embedding notebook: build the model with its default
    name and call it on the sentences. *)
Definition embedding_cell (model_name : string) (sentences : list string)
    : M F tensor :=
  sentence_transformer <- SentenceTransformer_init model_name ;;
  SentenceTransformer_forward ops (st_tokenizer sentence_transformer) encoder
    (st_encoder sentence_transformer) sentences.

(** The same for the classification notebook, up to the forward pass. *)
Definition classification_cell (model_name : string) (num_classes : nat)
    (sentences : list string) : M F tensor :=
  model <- SentenceClassificationTransformer_init model_name num_classes ;;
  SentenceClassificationTransformer_forward ops (sct_tokenizer model) encoder
    (sct_encoder model) (fst (sct_classifier model)) (snd (sct_classifier model))
    sentences.

(** The collaborators' contract on shapes: when the tokenizer and the
    encoder return, they have only added to the store, the mask has one
    row per sentence and one column per position, and the hidden states
    have the encoder's hidden size. *)
Definition shaped_collaborators : Prop :=
  forall model_name sentences h,
    match encode (AutoTokenizer_from_pretrained model_name) encoder
            (AutoModel_from_pretrained model_name) sentences h with
    | Raise _ => True
    | Ok p h' =>
        (exists new, h' = h ++ new) /\
        valid h' (fst p) /\ valid h' (snd p) /\
        exists T,
          t_size (fst p)
          = [length sentences; T; hidden_size (AutoModel_from_pretrained model_name)] /\
          t_size (snd p) = [length sentences; T]
    end.

End Construction.

(** The stubs as a pre-trained model of hidden size 2. *)
Module SampleModel.

Definition model_name : string := "bert-base-uncased"%string.
Definition stub_from_pretrained (name : string) : Z := 5%Z.
Definition stub_hidden_size (theta : Z) : nat := 2.
Definition stub_tokenizer_from_pretrained (F : Type) (name : string)
    : list string -> M F batch :=
  @Sample.stub_tokenizer F.
Definition stub_init_weight (idx : list nat) : Q := inject_Z (Z.of_nat (list_sum idx)).
Definition stub_init_bias (idx : list nat) : Q := 1%Q.

(** More views on the stores of [Sample]: the embeddings as one vector of
    12 entries and as an unbatched (6, 2) matrix; a zero-dimensional and
    a one-dimensional mask; the first row of the mask repeated by a
    stride 0. *)
Definition vector : tensor := mkTensor Float32 0 0 [12] [1].
Definition unbatched : tensor := mkTensor Float32 0 0 [6; 2] [2; 1].
Definition mask_scalar : tensor := mkTensor Int64 1 0 [] [].
Definition mask_flat : tensor := mkTensor Int64 1 0 [6] [1].
Definition mask_row_repeated : tensor := mkTensor Int64 1 0 [2; 3] [0; 1].



(** A binary32 store with an infinity at the padded last position of the
    second sentence. *)
Definition store_f_inf : heap spec_float :=
  [ [ EF (f_of_long F32.ops 1); EF (f_of_long F32.ops 2);
      EF (f_of_long F32.ops 3); EF (f_of_long F32.ops 4);
      EF (f_of_long F32.ops 5); EF (f_of_long F32.ops 6);
      EF (f_of_long F32.ops 7); EF (f_of_long F32.ops 8);
      EF (f_of_long F32.ops 9); EF (f_of_long F32.ops 10);
      EF (S754_infinity false); EF (f_of_long F32.ops 12) ];
    Sample.mask_cells spec_float [1; 1; 1; 1; 1; 0]%Z ].

(** The pooling of the sample, evaluated. *)
Definition pooling_run : tensor * heap spec_float :=
  Eval vm_compute in
    match mean_pooling F32.ops Sample.embeddings Sample.mask Sample.store_f with
    | Ok t h => (t, h)
    | Raise _ => (Sample.embeddings, [])
    end.

End SampleModel.

(** * Facts about the tensor model *)

Section TorchFacts.

Variable F : Type.
Variable ops : scalar_ops F.

(** ** Lists *)

Lemma traverse_map {A B} (f : A -> option B) (g : A -> B) (l : list A) :
  (forall a, In a l -> f a = Some (g a)) ->
  traverse f l = Some (map g l).
Proof.
  induction l as [|a l IH]; intros Hf; simpl; [reflexivity|].
  rewrite (Hf a (or_introl eq_refl)), IH; [reflexivity|].
  intros x Hx. apply Hf. now right.
Qed.

Lemma flat_map_length_const {A B} (f : A -> list B) (k : nat) (l : list A) :
  (forall x, length (f x) = k) -> length (flat_map f l) = length l * k.
Proof.
  intros Hk. induction l as [|x l IH]; simpl; [reflexivity|].
  now rewrite length_app, Hk, IH.
Qed.

Lemma flat_map_seq_nth {B} (f : nat -> list B) (k : nat) :
  (forall x, length (f x) = k) ->
  forall n a i j, i < n -> j < k ->
  nth_error (flat_map f (seq a n)) (i * k + j) = nth_error (f (a + i)) j.
Proof.
  intros Hk. induction n as [|n IH]; intros a i j Hi Hj; [lia|].
  simpl. destruct i as [|i].
  - simpl. rewrite nth_error_app1 by (rewrite Hk; exact Hj).
    now rewrite Nat.add_0_r.
  - rewrite nth_error_app2 by (rewrite Hk; simpl; lia).
    rewrite Hk. replace (S i * k + j - k) with (i * k + j) by (simpl; lia).
    rewrite IH by lia. f_equal. f_equal. lia.
Qed.

Lemma fold_left_ext_in {A B} (f g : A -> B -> A) (l : list B) :
  (forall a x, In x l -> f a x = g a x) ->
  forall a, fold_left f l a = fold_left g l a.
Proof.
  induction l as [|x l IH]; intros Hfg a; simpl; [reflexivity|].
  rewrite (Hfg a x (or_introl eq_refl)). apply IH.
  intros a' x' Hx'. apply Hfg. now right.
Qed.

Lemma mask_index_same B T b t : b < B -> t < T -> mask_index B T b t = [b; t].
Proof.
  intros Hb Ht. unfold mask_index.
  destruct (B =? 1) eqn:HB; destruct (T =? 1) eqn:HT;
    try apply Nat.eqb_eq in HB; try apply Nat.eqb_eq in HT;
    repeat f_equal; lia.
Qed.

(** ** Indices and offsets *)

Lemma in_rangeb_length idx sz :
  in_rangeb idx sz = true -> length idx = length sz.
Proof.
  revert sz. induction idx as [|i idx IH]; intros [|n sz]; simpl; try discriminate.
  - reflexivity.
  - intros H. apply andb_prop in H. destruct H as [_ H]. now rewrite (IH _ H).
Qed.

Lemma in_indices idx sz : In idx (indices sz) -> in_rangeb idx sz = true.
Proof.
  revert idx. induction sz as [|n sz IH]; intros idx; simpl.
  - intros [<-|[]]. reflexivity.
  - rewrite in_flat_map. intros (i & Hi & Hin).
    apply in_map_iff in Hin. destruct Hin as (idx' & <- & Hin').
    apply in_seq in Hi. simpl.
    rewrite (IH _ Hin'), andb_true_r. apply Nat.ltb_lt. lia.
Qed.

Lemma indices_in idx sz : in_rangeb idx sz = true -> In idx (indices sz).
Proof.
  revert idx. induction sz as [|n sz IH]; intros [|i idx]; simpl; try discriminate.
  - intros _. now left.
  - intros H. apply andb_prop in H. destruct H as [Hi Hr].
    apply Nat.ltb_lt in Hi. apply in_flat_map. exists i. split.
    + apply in_seq. lia.
    + apply in_map. now apply IH.
Qed.

Lemma indices_row_major sz : forall idx,
  in_rangeb idx sz = true ->
  length (indices sz) = numel1 sz /\
  offset_of idx (contiguous_stride sz) < numel1 sz /\
  nth_error (indices sz) (offset_of idx (contiguous_stride sz)) = Some idx.
Proof.
  induction sz as [|n sz IH]; intros [|i idx]; simpl; try discriminate.
  - intros _. repeat split. lia.
  - intros H. apply andb_prop in H. destruct H as [Hi Hr].
    apply Nat.ltb_lt in Hi. destruct (IH _ Hr) as (Hlen & Hoff & Hnth).
    assert (Hk : forall x : nat, length (map (cons x) (indices sz)) = numel1 sz)
      by (intros x; now rewrite length_map).
    rewrite (flat_map_length_const _ _ Hk), length_seq.
    replace (Nat.max n 1) with n by lia.
    repeat split; [nia|].
    rewrite (flat_map_seq_nth _ Hk) by assumption.
    simpl. now rewrite nth_error_map, Hnth.
Qed.

(** ** Reading a view *)

Lemma item_frame (h h' : heap F) t idx e :
  item h t idx = Some e -> item (h ++ h') t idx = Some e.
Proof.
  unfold item. destruct (in_rangeb idx (t_size t)); [|discriminate].
  destruct (nth_error h (t_storage t)) as [cells|] eqn:Hc; [|discriminate].
  rewrite nth_error_app1 by (apply nth_error_Some; congruence).
  now rewrite Hc.
Qed.

Lemma reads_frame (h h' : heap F) t g : reads h t g -> reads (h ++ h') t g.
Proof. intros Hr idx Hidx. apply item_frame. now apply Hr. Qed.

Lemma alloc_reads dt sz (g : list nat -> elem F) (h : heap F) :
  let t := mkTensor dt (length h) 0 sz (contiguous_stride sz) in
  alloc dt sz (map g (indices sz)) h = Ok t (h ++ [map g (indices sz)]) /\
  reads (h ++ [map g (indices sz)]) t g /\ wf t.
Proof.
  intros t. split; [reflexivity|]. split.
  - intros idx Hidx. unfold item. simpl in *. rewrite Hidx.
    rewrite nth_error_app2 by lia. rewrite Nat.sub_diag. simpl.
    destruct (indices_row_major _ _ Hidx) as (_ & _ & Hnth).
    now rewrite nth_error_map, Hnth.
  - unfold wf. simpl. clear. induction sz; simpl; congruence.
Qed.

(** ** The views *)

Lemma offset_of_snoc idx st i k :
  length idx = length st ->
  offset_of (idx ++ [i]) (st ++ [k]) = offset_of idx st + i * k.
Proof.
  revert st. induction idx as [|j idx IH]; intros [|s st]; simpl; try discriminate.
  - intros _. lia.
  - intros H. injection H as H. rewrite (IH _ H). lia.
Qed.

Lemma in_rangeb_snoc idx' sz :
  in_rangeb idx' (sz ++ [1]) = true ->
  exists idx, idx' = idx ++ [0] /\ in_rangeb idx sz = true.
Proof.
  revert idx'. induction sz as [|n sz IH]; intros [|i idx']; simpl; try discriminate.
  - destruct idx'; [|rewrite andb_false_r; discriminate].
    destruct i as [|i]; [|discriminate]. intros _.
    exists []. now split.
  - intros H. apply andb_prop in H. destruct H as [Hi Hr].
    destruct (IH _ Hr) as (idx & -> & Hidx).
    exists (i :: idx). split; [reflexivity|]. simpl. now rewrite Hi, Hidx.
Qed.

(** [unsqueeze(-1)] appends a dimension of size 1 and leaves the store alone. *)
Lemma unsqueeze_last_run (h : heap F) t :
  wf t ->
  unsqueeze t (-1) h
  = Ok (mkTensor (t_dtype t) (t_storage t) (t_offset t)
          (t_size t ++ [1]) (t_stride t ++ [1])) h.
Proof.
  intros Hwf. unfold unsqueeze.
  set (n := Z.of_nat (length (t_size t))).
  assert (Hn : (0 <= n)%Z) by (unfold n; lia).
  replace ((-1 <? - (n + 1)) || (n <? -1))%Z with false
    by (symmetry; apply orb_false_iff; split; apply Z.ltb_ge; lia).
  replace (Z.to_nat (if (-1 <? 0)%Z then (-1 + n + 1)%Z else (-1)%Z))
    with (length (t_size t)) by (change (-1 <? 0)%Z with true; unfold n; lia).
  unfold wf in Hwf.
  rewrite !firstn_all2, !skipn_all2 by lia.
  replace (nth_error (t_size t) (length (t_size t))) with (@None nat)
    by (symmetry; apply nth_error_None; lia).
  reflexivity.
Qed.

Lemma unsqueeze_last_spec (h : heap F) t g :
  wf t -> reads h t g ->
  exists t', unsqueeze t (-1) h = Ok t' h /\
    t_size t' = t_size t ++ [1] /\ t_dtype t' = t_dtype t /\ wf t' /\
    reads h t' (fun idx => g (removelast idx)).
Proof.
  intros Hwf Hr. rewrite (unsqueeze_last_run h Hwf).
  eexists. split; [reflexivity|]. simpl. unfold wf in Hwf. repeat split.
  - unfold wf. simpl. rewrite !length_app. simpl. lia.
  - intros idx' Hidx'. simpl in Hidx'.
    destruct (in_rangeb_snoc _ _ Hidx') as (idx & -> & Hidx).
    rewrite removelast_last. rewrite <- (Hr idx Hidx).
    unfold item. simpl. rewrite Hidx', Hidx.
    rewrite offset_of_snoc by (rewrite Hwf; now apply in_rangeb_length).
    now rewrite Nat.mul_0_l, Nat.add_0_r.
Qed.

Lemma expand_aligned_reads sz : forall st target st' idx,
  expand_aligned sz st target = Some st' ->
  in_rangeb idx target = true ->
  in_rangeb (unexpand sz idx) sz = true /\
  offset_of idx st' = offset_of (unexpand sz idx) st /\
  length st' = length target.
Proof.
  induction sz as [|s sz IH]; intros [|k st] [|tg target] st' idx; simpl;
    try discriminate.
  - intros [= <-]. destruct idx; [|discriminate]. intros _. now simpl.
  - destruct (expand_aligned sz st target) as [r|] eqn:Hr; [|discriminate].
    destruct idx as [|i idx]; [discriminate|]. simpl.
    intros Hst' H. apply andb_prop in H. destruct H as [Hi Hidx].
    destruct (IH _ _ _ _ Hr Hidx) as (Hin & Hoff & Hlen).
    destruct (s =? tg) eqn:Hs.
    + apply Nat.eqb_eq in Hs. subst tg. injection Hst' as <-. simpl.
      destruct (s =? 1) eqn:H1.
      * apply Nat.eqb_eq in H1. subst s. apply Nat.ltb_lt in Hi.
        replace i with 0 by lia. simpl. now rewrite Hin, Hoff, Hlen.
      * rewrite Hi, Hin, Hoff, Hlen. now simpl.
    + destruct (s =? 1) eqn:H1; [|discriminate].
      apply Nat.eqb_eq in H1. subst s. injection Hst' as <-. simpl.
      rewrite Hin, Hoff, Hlen. repeat split. lia.
Qed.

(** [expand] to a shape of the same rank: the view reads the cells of
    the original, the store is untouched. *)
Lemma expand_spec (h : heap F) t target st' g :
  length target = length (t_size t) ->
  expand_aligned (t_size t) (t_stride t) target = Some st' ->
  reads h t g ->
  exists t', expand t target h = Ok t' h /\
    t_size t' = target /\ t_dtype t' = t_dtype t /\ wf t' /\
    reads h t' (fun idx => g (unexpand (t_size t) idx)).
Proof.
  intros Hlen Hst Hr. unfold expand. rewrite Hlen, Nat.ltb_irrefl, Nat.sub_diag.
  simpl. rewrite Hst. eexists. split; [reflexivity|]. simpl.
  assert (Hl : length st' = length target).
  { clear -Hst. revert Hst. generalize (t_size t) (t_stride t). intros sz.
    revert st' target. induction sz as [|s sz IH]; intros st' [|tg tgs] [|k st];
      simpl; try discriminate.
    - now intros [= <-].
    - destruct (expand_aligned sz st tgs) eqn:E; [|discriminate].
      specialize (IH _ _ _ E).
      destruct (s =? tg); [intros [= <-]; simpl; congruence|].
      destruct (s =? 1); [intros [= <-]; simpl; congruence|discriminate]. }
  repeat split; [exact Hl|].
  intros idx Hidx. simpl in Hidx.
  destruct (expand_aligned_reads _ _ _ _ Hst Hidx) as (Hin & Hoff & _).
  rewrite <- (Hr _ Hin). unfold item. simpl. now rewrite Hidx, Hin, Hoff.
Qed.

Lemma expand_aligned_same sz : forall st,
  length st = length sz -> expand_aligned sz st sz = Some st.
Proof.
  induction sz as [|s sz IH]; intros [|k st]; simpl; try discriminate.
  - reflexivity.
  - intros H. injection H as H. now rewrite (IH _ H), Nat.eqb_refl.
Qed.

(** Expanding to the tensor's own shape returns the tensor. *)
Lemma expand_same (h : heap F) t : wf t -> expand t (t_size t) h = Ok t h.
Proof.
  intros Hwf. unfold expand. rewrite Nat.ltb_irrefl, Nat.sub_diag. simpl.
  rewrite (expand_aligned_same _ _ Hwf). now destruct t.
Qed.

Lemma broadcast_shapes_same sz : broadcast_shapes sz sz = Some sz.
Proof.
  unfold broadcast_shapes, pad_left. rewrite Nat.max_id, Nat.sub_diag. simpl.
  induction sz as [|s sz IH]; simpl; [reflexivity|].
  now rewrite IH, Nat.eqb_refl.
Qed.

(** ** The allocating operations *)

Lemma map2_tensor_spec f dt (h : heap F) a b ga gb :
  t_size b = t_size a -> reads h a ga -> reads h b gb ->
  exists t' cells, map2_tensor f dt a b h = Ok t' (h ++ [cells]) /\
    t_size t' = t_size a /\ t_dtype t' = dt /\ wf t' /\
    reads (h ++ [cells]) t' (fun idx => f (ga idx) (gb idx)).
Proof.
  intros Hsz Ha Hb. unfold map2_tensor.
  rewrite (traverse_map _ (fun idx => f (ga idx) (gb idx))).
  - destruct (alloc_reads dt (t_size a) (fun idx => f (ga idx) (gb idx)) h)
      as (Hrun & Hreads & Hwf).
    eexists. eexists. split; [exact Hrun|]. now repeat split.
  - intros idx Hin. apply in_indices in Hin.
    rewrite (Ha _ Hin). rewrite Hb by (now rewrite Hsz). reflexivity.
Qed.

(** On operands of one shape nothing is broadcast. *)
Lemma binary_same f dt (h : heap F) a b :
  wf a -> wf b -> t_size b = t_size a ->
  binary f dt a b h = map2_tensor f dt a b h.
Proof.
  intros Ha Hb Hsz. unfold binary. rewrite Hsz, broadcast_shapes_same.
  unfold bind. rewrite (expand_same h Ha). rewrite <- Hsz.
  now rewrite (expand_same h Hb).
Qed.

Lemma insert_in_range d : forall sz idx n k,
  nth_error sz d = Some n ->
  in_rangeb idx (firstn d sz ++ skipn (S d) sz) = true ->
  k < n ->
  in_rangeb (firstn d idx ++ k :: skipn d idx) sz = true.
Proof.
  induction d as [|d IH]; intros [|s sz] idx n k; simpl; try discriminate.
  - intros [= ->] Hidx Hk. apply Nat.ltb_lt in Hk. now rewrite Hk, Hidx.
  - destruct idx as [|i idx]; [discriminate|]. simpl.
    intros Hn H Hk. apply andb_prop in H. destruct H as [Hi Hidx].
    now rewrite Hi, (IH _ _ _ _ Hn Hidx Hk).
Qed.

Lemma fold_items (h : heap F) t (at_k : nat -> list nat) (g : nat -> elem F) l :
  (forall k, In k l -> item h t (at_k k) = Some (g k)) ->
  forall z,
  fold_left (fun acc k => match acc, item h t (at_k k) with
                          | Some a, Some x => Some (eadd ops a x)
                          | _, _ => None
                          end) l (Some z)
  = Some (fold_left (fun a k => eadd ops a (g k)) l z).
Proof.
  induction l as [|k l IH]; intros Hl z; simpl; [reflexivity|].
  rewrite (Hl k (or_introl eq_refl)). apply IH.
  intros k' Hk'. apply Hl. now right.
Qed.

Lemma sum_dim_spec (h : heap F) t d n g :
  nth_error (t_size t) d = Some n -> reads h t g ->
  exists t' cells, sum_dim ops t d h = Ok t' (h ++ [cells]) /\
    t_size t' = firstn d (t_size t) ++ skipn (S d) (t_size t) /\
    t_dtype t' = t_dtype t /\ wf t' /\
    reads (h ++ [cells]) t'
      (fun idx => fold_left
                    (fun acc k => eadd ops acc (g (firstn d idx ++ k :: skipn d idx)))
                    (seq 0 n) (ezero ops (t_dtype t))).
Proof.
  intros Hn Hr. unfold sum_dim. rewrite Hn.
  set (out := firstn d (t_size t) ++ skipn (S d) (t_size t)).
  set (G := fun idx => fold_left
              (fun acc k => eadd ops acc (g (firstn d idx ++ k :: skipn d idx)))
              (seq 0 n) (ezero ops (t_dtype t))).
  rewrite (traverse_map _ G).
  - destruct (alloc_reads (t_dtype t) out G h) as (Hrun & Hreads & Hwf).
    eexists. eexists. split; [exact Hrun|]. now repeat split.
  - intros idx Hin. apply in_indices in Hin. unfold G.
    apply fold_items. intros k Hk. apply in_seq in Hk. apply Hr.
    apply (insert_in_range _ _ _ Hn Hin). lia.
Qed.

Lemma clamp_min_spec (h : heap F) t m g :
  reads h t g ->
  exists t' cells, clamp_min ops t m h = Ok t' (h ++ [cells]) /\
    t_size t' = t_size t /\ t_dtype t' = Float32 /\ wf t' /\
    reads (h ++ [cells]) t' (fun idx => eclamp_min ops m (g idx)).
Proof.
  intros Hr. unfold clamp_min.
  rewrite (traverse_map _ (fun idx => eclamp_min ops m (g idx))).
  - destruct (alloc_reads Float32 (t_size t) (fun idx => eclamp_min ops m (g idx)) h)
      as (Hrun & Hreads & Hwf).
    eexists. eexists. split; [exact Hrun|]. now repeat split.
  - intros idx Hin. apply in_indices in Hin. now rewrite (Hr _ Hin).
Qed.

(** ** [mean_pooling] *)

Lemma expand_aligned_some sz : forall st target,
  length st = length sz -> expandableb sz target = true ->
  exists st', expand_aligned sz st target = Some st'.
Proof.
  induction sz as [|s sz IH]; intros [|k st] [|tg target]; simpl; try discriminate.
  - intros _ _. now eexists.
  - intros Hl H. injection Hl as Hl. apply andb_prop in H. destruct H as [Hs Hr].
    destruct (IH _ _ Hl Hr) as (r & ->).
    destruct (s =? tg); [now eexists|].
    simpl in Hs. rewrite Hs. now eexists.
Qed.

Lemma expand_aligned_none sz : forall st target,
  expandableb sz target = false -> expand_aligned sz st target = None.
Proof.
  induction sz as [|s sz IH]; intros [|k st] [|tg target]; simpl;
    try discriminate; try reflexivity.
  intros H. destruct (expand_aligned sz st target) eqn:E; [|reflexivity].
  destruct (expandableb sz target) eqn:Hr.
  - rewrite andb_true_r in H. apply orb_false_iff in H. destruct H as [-> ->].
    reflexivity.
  - now rewrite (IH _ _ Hr) in E.
Qed.

(** What [mean_pooling] returns on an embedding batch of shape (B, T, H)
    and a mask of shape (Bm, Tm) that [expand] accepts: a fresh float
    tensor of shape (B, H) holding [pooled_entry], in a store that extends
    the old one by the five intermediate storages. *)
Lemma mean_pooling_spec (h : heap F) E M gE gM B T H Bm Tm :
  wf E -> t_size E = [B; T; H] -> reads h E gE ->
  wf M -> t_size M = [Bm; Tm] -> reads h M gM ->
  expandableb [Bm; Tm] [B; T] = true ->
  exists S new,
    mean_pooling ops E M h = Ok S (h ++ new) /\
    length new = 5 /\
    t_size S = [B; H] /\ t_dtype S = Float32 /\ wf S /\
    forall b j, b < B -> j < H ->
      item (h ++ new) S [b; j]
      = Some (pooled_entry ops (t_dtype E) (t_dtype M) gE gM Bm Tm T b j).
Proof.
  intros HwE HsE HrE HwM HsM HrM Hexp.
  destruct (unsqueeze_last_spec HwM HrM) as (Mu & Hrun1 & HsMu & HdMu & HwMu & HrMu).
  rewrite HsM in HsMu. simpl in HsMu.
  assert (Hexp3 : expandableb (t_size Mu) [B; T; H] = true).
  { rewrite HsMu. simpl in *. apply andb_prop in Hexp. destruct Hexp as [H1 H2].
    rewrite H1. apply andb_prop in H2. destruct H2 as [H2 _]. rewrite H2.
    now rewrite orb_true_r. }
  destruct (expand_aligned_some _ _ _ HwMu Hexp3) as (st' & Hst').
  destruct (@expand_spec h Mu [B; T; H] st' _ ltac:(now rewrite HsMu) Hst' HrMu)
    as (Mx & Hrun2 & HsMx & HdMx & HwMx & HrMx).
  rewrite <- HsE in Hrun2.
  assert (Hsz : t_size Mx = t_size E) by congruence.
  destruct (map2_tensor_spec (emul ops) (promote (t_dtype E) (t_dtype Mx)) Hsz HrE HrMx)
    as (P & c1 & Hrun3 & HsP & HdP & HwP & HrP).
  rewrite <- (binary_same _ _ h HwE HwMx Hsz) in Hrun3.
  assert (HnP : nth_error (t_size P) 1 = Some T) by (now rewrite HsP, HsE).
  destruct (@sum_dim_spec _ P 1 T _ HnP HrP) as (SE & c2 & Hrun4 & HsSE & HdSE & HwSE & HrSE).
  assert (HnM : nth_error (t_size Mx) 1 = Some T) by (now rewrite HsMx).
  pose proof (reads_frame [c2] (reads_frame [c1] HrMx)) as HrMx2.
  destruct (@sum_dim_spec _ Mx 1 T _ HnM HrMx2) as (MC & c3 & Hrun5 & HsMC & HdMC & HwMC & HrMC).
  destruct (@clamp_min_spec _ MC (f_1e_9 ops) _ HrMC)
    as (SM & c4 & Hrun6 & HsSM & HdSM & HwSM & HrSM).
  assert (Hsz2 : t_size SM = t_size SE).
  { rewrite HsSM, HsMC, HsSE, HsMx, HsP, HsE. reflexivity. }
  pose proof (reads_frame [c4] (reads_frame [c3] HrSE)) as HrSE2.
  destruct (map2_tensor_spec (ediv ops) Float32 Hsz2 HrSE2 HrSM)
    as (S & c5 & Hrun7 & HsS & HdS & HwS & HrS).
  rewrite <- (binary_same _ _ _ HwSE HwSM Hsz2) in Hrun7.
  exists S, [c1; c2; c3; c4; c5].
  replace (h ++ [c1; c2; c3; c4; c5])
    with (((((h ++ [c1]) ++ [c2]) ++ [c3]) ++ [c4]) ++ [c5])
    by (now rewrite <- !app_assoc).
  split.
  { unfold mean_pooling, bind. rewrite Hrun1, Hrun2.
    unfold mul, div in *. rewrite Hrun3, Hrun4, Hrun5, Hrun6. exact Hrun7. }
  split; [reflexivity|].
  split; [rewrite HsS, HsSE, HsP, HsE; reflexivity|].
  split; [exact HdS|]. split; [exact HwS|].
  intros b j Hb Hj.
  rewrite HrS.
  - unfold pooled_entry. rewrite HdP, HdMx, HdMu, HsMu. reflexivity.
  - rewrite HsS, HsSE, HsP, HsE. simpl.
    apply Nat.ltb_lt in Hb, Hj. now rewrite Hb, Hj.
Qed.

Lemma expand_raises (h : heap F) t target :
  length target = length (t_size t) ->
  expandableb (t_size t) target = false ->
  expand t target h = Raise RuntimeError.
Proof.
  intros Hlen Hexp. unfold expand.
  rewrite Hlen, Nat.ltb_irrefl, Nat.sub_diag. cbn [skipn].
  now rewrite (expand_aligned_none _ _ _ Hexp).
Qed.

(** A mask that [expand] rejects makes [mean_pooling] raise. *)
Lemma mean_pooling_raises (h : heap F) E M B T H Bm Tm :
  wf M -> t_size E = [B; T; H] -> t_size M = [Bm; Tm] ->
  expandableb [Bm; Tm] [B; T] = false ->
  mean_pooling ops E M h = Raise RuntimeError.
Proof.
  intros HwM HsE HsM Hexp.
  unfold mean_pooling, bind. rewrite (unsqueeze_last_run h HwM).
  rewrite expand_raises; [reflexivity| |]; cbn [t_size]; rewrite HsE, HsM.
  - reflexivity.
  - simpl in *. destruct ((Bm =? B) || (Bm =? 1)); [|reflexivity].
    destruct ((Tm =? T) || (Tm =? 1)); [discriminate|reflexivity].
Qed.

Lemma valid_reads (h : heap F) t : valid h t -> reads h t (contents h t).
Proof.
  intros (_ & Hv) idx Hidx. unfold contents. specialize (Hv idx Hidx).
  now destruct (item h t idx).
Qed.

Lemma item_out_of_range (h h' : heap F) t idx :
  in_rangeb idx (t_size t) = false -> item h' t idx = item h t idx.
Proof. intros Hr. unfold item. now rewrite Hr. Qed.

(** A valid tensor reads the same in every extension of the store. *)
Lemma valid_frame (h new : heap F) t idx :
  valid h t -> item (h ++ new) t idx = item h t idx.
Proof.
  intros (_ & Hv). destruct (in_rangeb idx (t_size t)) eqn:Hr.
  - specialize (Hv idx Hr). destruct (item h t idx) as [x|] eqn:Hx; [|congruence].
    now apply item_frame.
  - now apply item_out_of_range.
Qed.

(** [pooled_entry] at (b, j) looks only at column (b, ., j) of the
    embeddings and at row b of the mask. *)
Lemma pooled_entry_ext dE dM (gE gM gE' gM' : list nat -> elem F)
    Bm Tm Bm' Tm' T b j b' j' :
  (forall t, t < T ->
     gE [b; t; j] = gE' [b'; t; j'] /\
     gM (mask_index Bm Tm b t) = gM' (mask_index Bm' Tm' b' t)) ->
  pooled_entry ops dE dM gE gM Bm Tm T b j
  = pooled_entry ops dE dM gE' gM' Bm' Tm' T b' j'.
Proof.
  intros Hcol. unfold pooled_entry. f_equal; [|f_equal];
    apply fold_left_ext_in; intros a t Ht; apply in_seq in Ht;
    destruct (Hcol t ltac:(lia)) as (HE & HM); now rewrite ?HE, HM.
Qed.

End TorchFacts.

(** * binary32: the pooling formula *)

Module F32Pooling.
Import F32.













End F32Pooling.

(** * Shape, rejection and purity of [mean_pooling], for any scalar type *)

Section PoolingFacts.

Variable F : Type.
Variable ops : scalar_ops F.

(** C4. For input shapes (B, T, H) and (B, T) the output of
    [mean_pooling] has shape exactly (B, H); this holds for all B, T, H,
    in particular for all B, T, H >= 1. *)
Theorem mean_pooling_shape (h : heap F) (E M : tensor) (B T H : nat) :
  valid h E -> valid h M ->
  t_size E = [B; T; H] -> t_size M = [B; T] ->
  exists S h', mean_pooling ops E M h = Ok S h' /\ t_size S = [B; H].
Proof.
  intros HvE HvM HsE HsM.
  assert (Hexp : expandableb [B; T] [B; T] = true)
    by (simpl; now rewrite !Nat.eqb_refl).
  destruct (mean_pooling_spec ops (proj1 HvE) HsE (valid_reads HvE)
              (proj1 HvM) HsM (valid_reads HvM) Hexp)
    as (S & new & Hrun & _ & HsS & _).
  now exists S, (h ++ new).
Qed.

(** C2, as the code has it.  [mean_pooling] has no shape check of its
    own; the only rejection is the one of [expand].  A mask of shape
    (Bm, Tm) is rejected with a RuntimeError exactly when Bm is neither B
    nor 1, or Tm is neither T nor 1; a mask dimension of size 1 is
    broadcast and the call returns a tensor of shape (B, H). *)
Theorem mean_pooling_rejects_unless_expandable
    (h : heap F) (E M : tensor) (B T H Bm Tm : nat) :
  valid h E -> valid h M ->
  t_size E = [B; T; H] -> t_size M = [Bm; Tm] ->
  ((Bm <> B /\ Bm <> 1) \/ (Tm <> T /\ Tm <> 1) ->
   mean_pooling ops E M h = Raise RuntimeError) /\
  ((Bm = B \/ Bm = 1) /\ (Tm = T \/ Tm = 1) ->
   exists S h', mean_pooling ops E M h = Ok S h' /\ t_size S = [B; H]).
Proof.
  intros HvE HvM HsE HsM. split.
  - intros Hbad. apply (mean_pooling_raises ops h E (proj1 HvM) HsE HsM).
    simpl. destruct Hbad as [(H1 & H2)|(H1 & H2)];
      apply Nat.eqb_neq in H1, H2; rewrite H1, H2; simpl;
      [reflexivity | apply andb_false_r].
  - intros ([HB|HB] & [HT|HT]);
      (assert (Hexp : expandableb [Bm; Tm] [B; T] = true)
         by (simpl; subst; rewrite ?Nat.eqb_refl, ?orb_true_r; reflexivity));
      destruct (mean_pooling_spec ops (proj1 HvE) HsE (valid_reads HvE)
                  (proj1 HvM) HsM (valid_reads HvM) Hexp)
        as (S & new & Hrun & _ & HsS & _);
      now exists S, (h ++ new).
Qed.


End PoolingFacts.

(** * binary32: an all-padding row *)

Module F32Facts.
Import F32.

Lemma mul_finite_zero x :
  is_finite x = true ->
  exists s, SFmul prec emax x (f_of_long ops 0) = S754_zero s.
Proof. destruct x; simpl; try discriminate; intros _; eexists; reflexivity. Qed.

Lemma add_zero_zero s :
  SFadd prec emax (S754_zero false) (S754_zero s) = S754_zero false.
Proof. now destruct s. Qed.

Lemma fold_zero_row (e : nat -> spec_float) l :
  (forall t, In t l -> is_finite (e t) = true) ->
  fold_left (fun a t => eadd ops a (emul ops (EF (e t)) (EL 0%Z))) l
    (EF (S754_zero false))
  = EF (S754_zero false).
Proof.
  induction l as [|t l IH]; intros Hfin; [reflexivity|].
  cbn [fold_left].
  destruct (mul_finite_zero (e t) (Hfin t (or_introl eq_refl))) as (s & Hs).
  replace (eadd ops (EF (S754_zero false)) (emul ops (EF (e t)) (EL 0%Z)))
    with (@EF spec_float (S754_zero false)).
  - apply IH. intros t' Ht'. apply Hfin. now right.
  - cbn [eadd emul as_float f_add f_mul ops]. now rewrite Hs, add_zero_zero.
Qed.

Lemma fold_zero_count (l : list nat) :
  fold_left (fun a (_ : nat) => eadd ops a (EL 0%Z)) l (EL 0%Z) = @EL spec_float 0%Z.
Proof. induction l as [|t l IH]; [reflexivity|]. cbn [fold_left]. exact IH. Qed.

(** The entry computed for a row whose mask is all zero, when the row's
    embeddings are finite: +0 / 1e-9 = +0. *)
Lemma zero_row_entry (e : list nat -> spec_float) (m : list nat -> Z) B T b j :
  b < B ->
  (forall t, t < T -> m [b; t] = 0%Z) ->
  (forall t, t < T -> is_finite (e [b; t; j]) = true) ->
  pooled_entry ops Float32 Int64 (fun idx => EF (e idx)) (fun idx => EL (m idx))
    B T T b j
  = EF (S754_zero false).
Proof.
  intros Hb Hzero Hfin. unfold pooled_entry.
  rewrite (fold_left_ext_in
             (fun acc t => eadd ops acc (emul ops (EF (e [b; t; j]))
                                           (EL (m (mask_index B T b t)))))
             (fun acc t => eadd ops acc (emul ops (EF (e [b; t; j])) (EL 0%Z))));
    [|intros a t Ht; apply in_seq in Ht;
      rewrite mask_index_same, Hzero by lia; reflexivity].
  rewrite (fold_left_ext_in
             (fun acc t => eadd ops acc (EL (m (mask_index B T b t))))
             (fun acc (_ : nat) => eadd ops acc (EL 0%Z)));
    [|intros a t Ht; apply in_seq in Ht;
      rewrite mask_index_same, Hzero by lia; reflexivity].
  change (ezero ops (promote Float32 Int64)) with (@EF spec_float (S754_zero false)).
  change (ezero ops Int64) with (@EL spec_float 0%Z).
  rewrite (fold_zero_row (fun t => e [b; t; j])), fold_zero_count.
  - reflexivity.
  - intros t Ht. apply in_seq in Ht. apply Hfin. lia.
Qed.

(** C3. For finite embeddings and a mask whose row b is entirely zero,
    [mean_pooling] does not raise, and no entry of row b of the result is
    NaN or infinite: the denominator is the floor 1e-9, not zero. *)
Theorem mean_pooling_zero_row_finite
    (h : heap spec_float) (E M : tensor)
    (e : list nat -> spec_float) (m : list nat -> Z) (B T H b : nat) :
  holds_floats h E e -> t_size E = [B; T; H] ->
  holds_longs h M m -> t_size M = [B; T] ->
  (forall idx, in_rangeb idx [B; T; H] = true -> is_finite (e idx) = true) ->
  b < B ->
  (forall t, t < T -> m [b; t] = 0%Z) ->
  exists S h',
    mean_pooling ops E M h = Ok S h' /\
    forall j, j < H ->
      exists x, item h' S [b; j] = Some (EF x) /\
                is_nan x = false /\ is_inf x = false.
Proof.
  intros (HwE & HdE & HrE) HsE (HwM & HdM & HrM) HsM Hfin Hb Hzero.
  assert (Hexp : expandableb [B; T] [B; T] = true)
    by (simpl; now rewrite !Nat.eqb_refl).
  destruct (mean_pooling_spec ops HwE HsE HrE HwM HsM HrM Hexp)
    as (S & new & Hrun & _ & _ & _ & _ & Hitem).
  exists S, (h ++ new). split; [exact Hrun|].
  intros j Hj. exists (S754_zero false).
  rewrite (Hitem b j Hb Hj), HdE, HdM, zero_row_entry; auto.
  intros t Ht. apply Hfin. simpl.
  apply Nat.ltb_lt in Hb, Ht, Hj. now rewrite Hb, Ht, Hj.
Qed.

(** C10. Under the same conditions row b of the result is exactly the
    zero vector: every entry is +0. *)
Theorem mean_pooling_zero_row_is_zero
    (h : heap spec_float) (E M : tensor)
    (e : list nat -> spec_float) (m : list nat -> Z) (B T H b : nat) :
  holds_floats h E e -> t_size E = [B; T; H] ->
  holds_longs h M m -> t_size M = [B; T] ->
  (forall idx, in_rangeb idx [B; T; H] = true -> is_finite (e idx) = true) ->
  b < B ->
  (forall t, t < T -> m [b; t] = 0%Z) ->
  exists S h',
    mean_pooling ops E M h = Ok S h' /\
    t_size S = [B; H] /\
    forall j, j < H -> item h' S [b; j] = Some (EF (S754_zero false)).
Proof.
  intros (HwE & HdE & HrE) HsE (HwM & HdM & HrM) HsM Hfin Hb Hzero.
  assert (Hexp : expandableb [B; T] [B; T] = true)
    by (simpl; now rewrite !Nat.eqb_refl).
  destruct (mean_pooling_spec ops HwE HsE HrE HwM HsM HrM Hexp)
    as (S & new & Hrun & _ & HsS & _ & _ & Hitem).
  exists S, (h ++ new). split; [exact Hrun|]. split; [exact HsS|].
  intros j Hj.
  rewrite (Hitem b j Hb Hj), HdE, HdM, zero_row_entry; auto.
  intros t Ht. apply Hfin. simpl.
  apply Nat.ltb_lt in Hb, Ht, Hj. now rewrite Hb, Ht, Hj.
Qed.

End F32Facts.

(** * The linear head and the forward passes *)

Section NotebookFacts.

Variable F : Type.
Variable ops : scalar_ops F.

Lemma in_rangeb_2 (idx : list nat) (n c : nat) :
  in_rangeb idx [n; c] = true -> exists i o, idx = [i; o] /\ i < n /\ o < c.
Proof.
  destruct idx as [|i [|o [|x idx]]]; simpl; try discriminate.
  - now rewrite andb_false_r.
  - rewrite andb_true_r. intros H. apply andb_prop in H. destruct H as [Hi Ho].
    apply Nat.ltb_lt in Hi, Ho. now exists i, o.
  - rewrite !andb_false_r. discriminate.
Qed.

Lemma in_rangeb_2_intro i o n c : i < n -> o < c -> in_rangeb [i; o] [n; c] = true.
Proof.
  intros Hi Ho. apply Nat.ltb_lt in Hi, Ho. simpl. now rewrite Hi, Ho.
Qed.

Lemma fold_dot (h : heap F) x w i o (gx gw : list nat -> elem F) l :
  (forall k, In k l -> item h x [i; k] = Some (gx [i; k]) /\
                       item h w [o; k] = Some (gw [o; k])) ->
  forall z,
  fold_left (fun acc k => match acc, item h x [i; k], item h w [o; k] with
                          | Some a, Some u, Some v => Some (eadd ops a (emul ops u v))
                          | _, _, _ => None
                          end) l (Some z)
  = Some (fold_left (fun a k => eadd ops a (emul ops (gx [i; k]) (gw [o; k]))) l z).
Proof.
  induction l as [|k l IH]; intros Hl z; simpl; [reflexivity|].
  destruct (Hl k (or_introl eq_refl)) as (-> & ->). apply IH.
  intros k' Hk'. apply Hl. now right.
Qed.

(** [linear] returns [x . weight^T + bias], freshly allocated. *)
Lemma linear_spec (h : heap F) x w b (gx gw gb : list nat -> elem F) n k c :
  t_size x = [n; k] -> t_size w = [c; k] -> t_size b = [c] ->
  reads h x gx -> reads h w gw -> reads h b gb ->
  exists L cells,
    linear ops x w b h = Ok L (h ++ [cells]) /\
    t_size L = [n; c] /\ wf L /\
    forall i o, i < n -> o < c ->
      item (h ++ [cells]) L [i; o]
      = Some (eadd ops
                (fold_left (fun a l => eadd ops a (emul ops (gx [i; l]) (gw [o; l])))
                   (seq 0 k) (ezero ops (promote (t_dtype x) (t_dtype w))))
                (gb [o])).
Proof.
  intros Hx Hw Hb Hrx Hrw Hrb. unfold linear.
  rewrite Hx, Hw, Hb, !Nat.eqb_refl. cbn [andb].
  set (G := fun idx : list nat =>
              eadd ops
                (fold_left (fun a l => eadd ops a (emul ops (gx [nth 0 idx 0; l])
                                                     (gw [nth 1 idx 0; l])))
                   (seq 0 k) (ezero ops (promote (t_dtype x) (t_dtype w))))
                (gb [nth 1 idx 0])).
  rewrite (traverse_map _ G).
  - destruct (alloc_reads (promote (promote (t_dtype x) (t_dtype w)) (t_dtype b))
                [n; c] G h) as (Hrun & Hreads & Hwf).
    eexists. eexists. split; [exact Hrun|].
    split; [reflexivity|]. split; [exact Hwf|].
    intros i o Hi Ho. rewrite Hreads; [reflexivity|].
    now apply in_rangeb_2_intro.
  - intros idx Hin. apply in_indices in Hin.
    destruct (in_rangeb_2 _ _ _ Hin) as (i & o & -> & Hi & Ho).
    cbn [nth]. unfold G. cbn [nth].
    rewrite (fold_dot h x w i o gx gw).
    + rewrite Hrb; [reflexivity|]. rewrite Hb. simpl.
      apply Nat.ltb_lt in Ho. now rewrite Ho.
    + intros l Hl. apply in_seq in Hl. split.
      * apply Hrx. rewrite Hx. apply in_rangeb_2_intro; lia.
      * apply Hrw. rewrite Hw. apply in_rangeb_2_intro; lia.
Qed.

Variable Theta : Type.
Variable tokenizer : list string -> M F batch.
Variable encoder : Theta -> batch -> M F tensor.

Lemma classification_forward_unfold theta w b sentences (h : heap F) :
  SentenceClassificationTransformer_forward ops tokenizer encoder theta w b sentences h
  = bind (SentenceTransformer_forward ops tokenizer encoder theta sentences)
      (fun S => linear ops S w b) h.
Proof.
  unfold SentenceClassificationTransformer_forward, SentenceTransformer_forward, bind, ret.
  destruct (tokenizer sentences h) as [inputs h1|e]; [|reflexivity].
  destruct (encoder theta inputs h1) as [E h2|e]; [|reflexivity].
  destruct (mean_pooling ops E (attention_mask inputs) h2) as [S h3|e]; [|reflexivity].
  now destruct (linear ops S w b h3).
Qed.

(** C5. The classification forward pass is the embedding-only forward
    pass followed by one linear projection: when the latter returns S of
    shape (B, H) and the head holds a weight of shape (C, H) and a bias of
    shape (C), the former returns logits of shape (B, C) with
    logits[i, c] = sum_l S[i, l] * W[c, l] + b[c]; with B = 2 sentences and
    C = 3 classes the shape is (2, 3). *)
Theorem classification_forward_projects
    theta (w b : tensor) sentences (h : heap F) (S : tensor) (h1 : heap F)
    (B H C : nat) :
  SentenceTransformer_forward ops tokenizer encoder theta sentences h = Ok S h1 ->
  valid h1 S -> t_size S = [B; H] ->
  valid h1 w -> t_size w = [C; H] ->
  valid h1 b -> t_size b = [C] ->
  exists L cells,
    SentenceClassificationTransformer_forward ops tokenizer encoder theta w b
      sentences h = Ok L (h1 ++ [cells]) /\
    t_size L = [B; C] /\
    (B = 2 -> C = 3 -> t_size L = [2; 3]) /\
    forall i c, i < B -> c < C ->
      item (h1 ++ [cells]) L [i; c]
      = Some (eadd ops
                (fold_left
                   (fun acc l => eadd ops acc
                                   (emul ops (contents h1 S [i; l]) (contents h1 w [c; l])))
                   (seq 0 H) (ezero ops (promote (t_dtype S) (t_dtype w))))
                (contents h1 b [c])).
Proof.
  intros Hrun HvS HsS Hvw Hsw Hvb Hsb.
  destruct (linear_spec HsS Hsw Hsb (valid_reads HvS) (valid_reads Hvw)
              (valid_reads Hvb)) as (L & cells & HL & HsL & _ & Hitem).
  exists L, cells. split.
  - rewrite classification_forward_unfold. unfold bind. now rewrite Hrun.
  - split; [exact HsL|]. split; [intros -> ->; exact HsL|]. exact Hitem.
Qed.

Lemma forward_via_encode theta sentences (h : heap F) :
  SentenceTransformer_forward ops tokenizer encoder theta sentences h
  = match encode tokenizer encoder theta sentences h with
    | Ok p h' => mean_pooling ops (fst p) (snd p) h'
    | Raise e => Raise e
    end.
Proof.
  unfold SentenceTransformer_forward, encode, bind.
  destruct (tokenizer sentences h) as [inputs h1|e]; [|reflexivity].
  destruct (encoder theta inputs h1) as [E h2|e]; [|reflexivity].
  unfold ret. simpl.
  now destruct (mean_pooling ops E (attention_mask inputs) h2).
Qed.

(** C7. With a tokenizer and an encoder that are deterministic in the
    sentences and the weights, the embedding-only forward pass is
    deterministic: called in any two stores with the same weights and
    sentences it has the same outcome, and a second call, made in the
    store the first call leaves behind, returns a batch of the same shape
    with identical entries. *)
Theorem forward_deterministic theta sentences (h h' : heap F) :
  deterministic_collaborators tokenizer encoder ->
  same_outcome
    (SentenceTransformer_forward ops tokenizer encoder theta sentences h)
    (SentenceTransformer_forward ops tokenizer encoder theta sentences h') /\
  forall S1 h1,
    SentenceTransformer_forward ops tokenizer encoder theta sentences h = Ok S1 h1 ->
    exists S2 h2,
      SentenceTransformer_forward ops tokenizer encoder theta sentences h1 = Ok S2 h2 /\
      t_size S2 = t_size S1 /\
      forall idx, item h2 S2 idx = item h1 S1 idx.
Proof.
  intros Hdet.
  assert (Hany : forall ha hb,
            same_outcome
              (SentenceTransformer_forward ops tokenizer encoder theta sentences ha)
              (SentenceTransformer_forward ops tokenizer encoder theta sentences hb)).
  { intros ha hb. rewrite !forward_via_encode.
    destruct (Hdet theta sentences) as [(e & Hraise)|Hok].
    - rewrite !Hraise. reflexivity.
    - destruct Hok as (B & T & H & dE & dM & gE & gM & Hok).
      destruct (Hok ha) as (Ea & Ma & ha' & -> & HwEa & HsEa & HdEa & HrEa
                            & HwMa & HsMa & HdMa & HrMa).
      destruct (Hok hb) as (Eb & Mb & hb' & -> & HwEb & HsEb & HdEb & HrEb
                            & HwMb & HsMb & HdMb & HrMb).
      assert (Hexp : expandableb [B; T] [B; T] = true)
        by (simpl; now rewrite !Nat.eqb_refl).
      destruct (mean_pooling_spec ops HwEa HsEa HrEa HwMa HsMa HrMa Hexp)
        as (Sa & na & Hruna & _ & HsSa & _ & _ & Hia).
      destruct (mean_pooling_spec ops HwEb HsEb HrEb HwMb HsMb HrMb Hexp)
        as (Sb & nb & Hrunb & _ & HsSb & _ & _ & Hib).
      cbn [fst snd]. rewrite Hruna, Hrunb. simpl.
      split; [congruence|].
      intros idx. destruct (in_rangeb idx [B; H]) eqn:Hr.
      + destruct (in_rangeb_2 _ _ _ Hr) as (i & o & -> & Hi & Ho).
        rewrite (Hia i o Hi Ho), (Hib i o Hi Ho). congruence.
      + unfold item. now rewrite HsSa, HsSb, Hr. }
  split; [apply Hany|].
  intros S1 h1 Hrun. specialize (Hany h h1). rewrite Hrun in Hany.
  destruct (SentenceTransformer_forward ops tokenizer encoder theta sentences h1)
    as [S2 h2|e]; [|destruct Hany].
  destruct Hany as (Hsz & Hit). exists S2, h2.
  split; [reflexivity|]. split; [now symmetry|]. intros idx. now symmetry.
Qed.

End NotebookFacts.

(** * The training step *)

Section TrainingFacts.

Variable F : Type.
Variable ops : scalar_ops F.
Variable Theta : Type.
Variable tokenizer : list string -> M F batch.
Variable encoder : Theta -> batch -> M F tensor.
Variable G O : Type.
Variable classification_loss_fn : tensor -> list Z -> M F tensor.
Variable autograd : Theta -> heap F -> tensor -> G.
Variable accumulate : option G -> G -> G.
Variable adamw : option G -> O -> Theta -> heap F -> O * Theta * heap F.

(** C6, as the code has it.  When the forward pass and the loss succeed,
    the training step runs, in this order: the forward pass, the loss,
    the clearing of the accumulated gradients, the backward pass, one
    optimizer update.  The gradients of an earlier step never reach the
    update, and the gradients of this step are still set when it ends. *)
Theorem training_step_order
    (w b : tensor) (sentences : list string) (labels : list Z)
    (s : trainer F Theta G O) (logits loss : tensor) (h1 h2 : heap F) :
  SentenceClassificationTransformer_forward ops tokenizer encoder (tr_theta s) w b
    sentences (tr_heap s) = Ok logits h1 ->
  classification_loss_fn logits labels h1 = Ok loss h2 ->
  exists s',
    training_step ops tokenizer encoder classification_loss_fn autograd accumulate
      adamw w b sentences labels s = inr ((logits, loss), s') /\
    tr_trace s' = tr_trace s ++ [EvForward; EvLoss; EvZeroGrad; EvBackward; EvStep] /\
    tr_grads s' = Some (accumulate None (autograd (tr_theta s) h2 loss)) /\
    (tr_opt s', tr_theta s', tr_heap s')
    = adamw (Some (accumulate None (autograd (tr_theta s) h2 loss)))
        (tr_opt s) (tr_theta s) h2.
Proof.
  intros Hfwd Hloss.
  unfold training_step, tbind, model_call, lift. rewrite Hfwd.
  cbn [logged tr_heap tr_theta tr_grads tr_opt tr_trace]. rewrite Hloss.
  unfold zero_grad, backward, optimizer_step, tret.
  cbn [logged tr_heap tr_theta tr_grads tr_opt tr_trace].
  destruct (adamw (Some (accumulate None (autograd (tr_theta s) h2 loss)))
              (tr_opt s) (tr_theta s) h2) as [[o theta] h3] eqn:Hstep.
  eexists. split; [reflexivity|].
  unfold logged. cbn [tr_heap tr_theta tr_grads tr_opt tr_trace].
  split; [now rewrite <- !app_assoc|]. split; reflexivity.
Qed.

End TrainingFacts.

(** * The stub collaborators keep their contract *)

Section StubFacts.

Variable F : Type.
Variable ops : scalar_ops F.

Lemma stubs_deterministic :
  deterministic_collaborators (@Sample.stub_tokenizer F) (Sample.stub_encoder ops).
Proof.
  intros theta sentences. right.
  set (B := length sentences).
  set (T := fold_right Nat.max 0 (map String.length sentences)).
  exists B, T, 2, Float32, Int64, (Sample.stub_hidden ops theta),
    (fun idx => EL (Sample.token_mask sentences idx)).
  intros h.
  unfold encode, Sample.stub_tokenizer, Sample.stub_encoder, bind, ret.
  fold B T.
  set (ids := map (fun idx => @EL F (Sample.token_id sentences idx)) (indices [B; T])).
  destruct (alloc_reads Int64 [B; T]
              (fun idx => @EL F (Sample.token_mask sentences idx)) (h ++ [ids]))
    as (_ & HrM & HwM).
  destruct (alloc_reads Float32 [B; T; 2] (Sample.stub_hidden ops theta)
              ((h ++ [ids]) ++
               [map (fun idx => @EL F (Sample.token_mask sentences idx)) (indices [B; T])]))
    as (_ & HrE & HwE).
  unfold alloc. cbn [input_ids attention_mask t_size app].
  eexists. eexists. eexists. split; [reflexivity|].
  split; [exact HwE|]. split; [reflexivity|]. split; [reflexivity|].
  split; [exact HrE|]. split; [exact HwM|]. split; [reflexivity|].
  split; [reflexivity|]. apply reads_frame. exact HrM.
Qed.

End StubFacts.

(** * The theorems at work on the sample *)

Module SampleFacts.
Import Sample.

(** Goals over all indices of a small shape, settled index by index. *)
Ltac each_index H :=
  apply indices_in in H; simpl in H;
  repeat (destruct H as [<- | H];
          [first [reflexivity | vm_compute; discriminate] |]);
  contradiction.

Ltac holds_by_cases :=
  split; [reflexivity | split; [reflexivity | intros idx Hidx; each_index Hidx]].

Ltac valid_by_cases :=
  split; [reflexivity | intros idx Hidx; each_index Hidx].



Lemma mean_pooling_shape_witness :
  exists S h', mean_pooling Exact.ops embeddings mask store_q = Ok S h' /\
               t_size S = [2; 2].
Proof.
  apply (@mean_pooling_shape Q Exact.ops store_q embeddings mask 2 3 2).
  - valid_by_cases.
  - valid_by_cases.
  - reflexivity.
  - reflexivity.
Defined.

(** C2 fails on the code: a mask of shape (1, 3) does not match the
    embeddings' leading shape (2, 3), and [mean_pooling] accepts it,
    broadcasting the one row over both sentences. *)
Lemma mean_pooling_accepts_shape_mismatch :
  t_size embeddings = [2; 3; 2] /\ t_size mask_one_row = [1; 3] /\
  [2; 3] <> [1; 3] /\
  (exists S h', mean_pooling Exact.ops embeddings mask_one_row store_q = Ok S h') /\
  mean_pooling Exact.ops embeddings mask_one_row store_q <> Raise RuntimeError.
Proof.
  split; [reflexivity|]. split; [reflexivity|]. split; [discriminate|].
  split; [eexists; eexists; vm_compute; reflexivity | vm_compute; discriminate].
Qed.

Lemma mean_pooling_rejects_unless_expandable_witness :
  mean_pooling Exact.ops embeddings mask_short store_q = Raise RuntimeError /\
  exists S h', mean_pooling Exact.ops embeddings mask_one_row store_q = Ok S h' /\
               t_size S = [2; 2].
Proof.
  split.
  - apply (proj1 (@mean_pooling_rejects_unless_expandable Q Exact.ops store_q
                    embeddings mask_short 2 3 2 2 2
                    ltac:(valid_by_cases) ltac:(valid_by_cases) eq_refl eq_refl)).
    right. split; discriminate.
  - apply (proj2 (@mean_pooling_rejects_unless_expandable Q Exact.ops store_q
                    embeddings mask_one_row 2 3 2 1 3
                    ltac:(valid_by_cases) ltac:(valid_by_cases) eq_refl eq_refl)).
    split; [now right | now left].
Defined.


Lemma mean_pooling_zero_row_finite_witness :
  exists S h',
    mean_pooling F32.ops embeddings mask store_f = Ok S h' /\
    forall j, j < 2 ->
      exists x, item h' S [1; j] = Some (EF x) /\
                F32.is_nan x = false /\ F32.is_inf x = false.
Proof.
  apply (@F32Facts.mean_pooling_zero_row_finite store_f embeddings mask
           (float_at F32.ops store_f embeddings) (long_at store_f mask) 2 3 2 1).
  - holds_by_cases.
  - reflexivity.
  - holds_by_cases.
  - reflexivity.
  - intros idx Hidx. each_index Hidx.
  - lia.
  - intros t Ht. destruct t as [|[|[|t]]]; [| | |lia]; reflexivity.
Defined.

Lemma mean_pooling_zero_row_is_zero_witness :
  exists S h',
    mean_pooling F32.ops embeddings mask store_f = Ok S h' /\
    t_size S = [2; 2] /\
    forall j, j < 2 -> item h' S [1; j] = Some (EF (S754_zero false)).
Proof.
  apply (@F32Facts.mean_pooling_zero_row_is_zero store_f embeddings mask
           (float_at F32.ops store_f embeddings) (long_at store_f mask) 2 3 2 1).
  - holds_by_cases.
  - reflexivity.
  - holds_by_cases.
  - reflexivity.
  - intros idx Hidx. each_index Hidx.
  - lia.
  - intros t Ht. destruct t as [|[|[|t]]]; [| | |lia]; reflexivity.
Defined.

Lemma classification_forward_projects_witness :
  exists L cells,
    SentenceClassificationTransformer_forward Exact.ops (@stub_tokenizer Q)
      (stub_encoder Exact.ops) 5%Z weight bias sample_sentences store_head
    = Ok L (snd embedding_run ++ [cells]) /\
    t_size L = [2; 3].
Proof.
  destruct (@classification_forward_projects Q Exact.ops Z (@stub_tokenizer Q)
              (stub_encoder Exact.ops) 5%Z weight bias sample_sentences store_head
              (fst embedding_run) (snd embedding_run) 2 2 3)
    as (L & cells & Hrun & HsL & _).
  - vm_compute. reflexivity.
  - valid_by_cases.
  - reflexivity.
  - valid_by_cases.
  - reflexivity.
  - valid_by_cases.
  - reflexivity.
  - exists L, cells. split; [exact Hrun | exact HsL].
Defined.

Lemma forward_deterministic_witness :
  same_outcome
    (SentenceTransformer_forward Exact.ops (@stub_tokenizer Q)
       (stub_encoder Exact.ops) 5%Z sample_sentences store_head)
    (SentenceTransformer_forward Exact.ops (@stub_tokenizer Q)
       (stub_encoder Exact.ops) 5%Z sample_sentences (snd embedding_run)).
Proof.
  exact (proj1 (@forward_deterministic Q Exact.ops Z (@stub_tokenizer Q)
                  (stub_encoder Exact.ops) 5%Z sample_sentences store_head
                  (snd embedding_run) (stubs_deterministic Exact.ops))).
Defined.

Lemma training_step_order_witness :
  exists s',
    training_step Exact.ops (@stub_tokenizer Q) (stub_encoder Exact.ops)
      (stub_loss Exact.ops) (@stub_autograd Q) stub_accumulate (@stub_adamw Q)
      weight bias sample_sentences sentence_labels trainer0
    = inr ((fst logits_run, fst loss_run), s') /\
    tr_trace s' = [EvForward; EvLoss; EvZeroGrad; EvBackward; EvStep] /\
    tr_grads s' = Some 1%Z.
Proof.
  destruct (@training_step_order Q Exact.ops Z (@stub_tokenizer Q)
              (stub_encoder Exact.ops) Z nat (stub_loss Exact.ops)
              (@stub_autograd Q) stub_accumulate (@stub_adamw Q)
              weight bias sample_sentences sentence_labels trainer0
              (fst logits_run) (fst loss_run) (snd logits_run) (snd loss_run))
    as (s' & Hrun & Htrace & Hgrads & _).
  - vm_compute. reflexivity.
  - reflexivity.
  - exists s'. split; [exact Hrun|]. split; [exact Htrace | exact Hgrads].
Defined.

(** C6 fails on the code: the step on the sample does not run in the
    order the specification gives (the gradients are cleared before the
    backward pass, not after the update), and when the step ends the
    gradients are not cleared. *)
Lemma training_step_not_in_spec_order :
  match training_step Exact.ops (@stub_tokenizer Q) (stub_encoder Exact.ops)
          (stub_loss Exact.ops) (@stub_autograd Q) stub_accumulate (@stub_adamw Q)
          weight bias sample_sentences sentence_labels trainer0 with
  | inr (_, s') =>
      tr_trace s' = [EvForward; EvLoss; EvZeroGrad; EvBackward; EvStep] /\
      tr_trace s' <> spec_step_order /\
      tr_grads s' <> None
  | inl _ => False
  end.
Proof. vm_compute. split; [reflexivity|]. split; discriminate. Qed.

End SampleFacts.

(** * More on [mean_pooling]: ranks, unbatched input, broadcast masks *)

Section MorePoolingFacts.

Variable F : Type.
Variable ops : scalar_ops F.

(** A mask with at least as many dimensions as the embeddings (an
    already expanded mask, say) is rejected: after [unsqueeze(-1)] it has
    more dimensions than the size [expand] is given. *)
Theorem mean_pooling_mask_rank_too_high (h : heap F) (E M : tensor) :
  wf M ->
  length (t_size E) <= length (t_size M) ->
  mean_pooling ops E M h = Raise RuntimeError.
Proof.
  intros HwM Hrank. unfold mean_pooling, bind.
  rewrite (unsqueeze_last_run h HwM). unfold expand. cbn [t_size].
  rewrite length_app. cbn [length].
  replace (length (t_size E) <? length (t_size M) + 1) with true
    by (symmetry; apply Nat.ltb_lt; lia).
  reflexivity.
Qed.

Lemma in_rangeb_1 (idx : list nat) (n : nat) :
  in_rangeb idx [n] = true -> exists i, idx = [i] /\ i < n.
Proof.
  destruct idx as [|i [|x idx]]; simpl; try discriminate.
  - rewrite andb_true_r. intros H. apply Nat.ltb_lt in H. now exists i.
  - rewrite andb_false_r. discriminate.
Qed.

(** One-dimensional embeddings with a zero-dimensional mask pass
    [expand] and the product, and fail in [torch.sum(., 1)]: there is no
    dimension 1. *)
Theorem mean_pooling_rank_one_index_error (h : heap F) (E M : tensor) (n : nat) :
  valid h E -> valid h M ->
  t_size E = [n] -> t_size M = [] ->
  mean_pooling ops E M h = Raise IndexError.
Proof.
  intros HvE HvM HsE HsM.
  destruct (unsqueeze_last_spec (proj1 HvM) (valid_reads HvM))
    as (Mu & Hrun1 & HsMu & _ & HwMu & HrMu).
  rewrite HsM in HsMu. simpl in HsMu.
  assert (Hexp : expandableb (t_size Mu) [n] = true)
    by (rewrite HsMu; simpl; now rewrite orb_true_r).
  destruct (expand_aligned_some _ _ _ HwMu Hexp) as (st' & Hst').
  destruct (@expand_spec F h Mu [n] st' _ ltac:(now rewrite HsMu) Hst' HrMu)
    as (Mx & Hrun2 & HsMx & _ & HwMx & HrMx).
  rewrite <- HsE in Hrun2.
  assert (Hsz : t_size Mx = t_size E) by congruence.
  destruct (map2_tensor_spec (emul ops) (promote (t_dtype E) (t_dtype Mx)) Hsz
              (valid_reads HvE) HrMx) as (P & c1 & Hrun3 & HsP & _).
  rewrite <- (binary_same _ _ h (proj1 HvE) HwMx Hsz) in Hrun3.
  unfold mean_pooling, bind. rewrite Hrun1, Hrun2. unfold mul. rewrite Hrun3.
  unfold sum_dim. now rewrite HsP, HsE.
Qed.

(** Unbatched input is not rejected.  On embeddings of shape (T, H) and
    a mask of shape (T), [mean_pooling] returns a tensor of shape (T):
    dimension 1 is now the hidden one, so entry t is the sum over the
    hidden units of token t, times its mask bit, divided by the clamped
    sum of H copies of that bit. *)
Theorem mean_pooling_unbatched (h : heap F) (E M : tensor) (T H : nat) :
  valid h E -> valid h M ->
  t_size E = [T; H] -> t_size M = [T] ->
  exists S h',
    mean_pooling ops E M h = Ok S h' /\
    t_size S = [T] /\
    forall t, t < T ->
      item h' S [t]
      = Some (ediv ops
                (fold_left
                   (fun acc j => eadd ops acc
                                   (emul ops (contents h E [t; j]) (contents h M [t])))
                   (seq 0 H) (ezero ops (promote (t_dtype E) (t_dtype M))))
                (eclamp_min ops (f_1e_9 ops)
                   (fold_left (fun acc (_ : nat) => eadd ops acc (contents h M [t]))
                      (seq 0 H) (ezero ops (t_dtype M))))).
Proof.
  intros HvE HvM HsE HsM.
  destruct (unsqueeze_last_spec (proj1 HvM) (valid_reads HvM))
    as (Mu & Hrun1 & HsMu & HdMu & HwMu & HrMu).
  rewrite HsM in HsMu. simpl in HsMu.
  assert (Hexp : expandableb (t_size Mu) [T; H] = true)
    by (rewrite HsMu; simpl; now rewrite Nat.eqb_refl, orb_true_r).
  destruct (expand_aligned_some _ _ _ HwMu Hexp) as (st' & Hst').
  destruct (@expand_spec F h Mu [T; H] st' _ ltac:(now rewrite HsMu) Hst' HrMu)
    as (Mx & Hrun2 & HsMx & HdMx & HwMx & HrMx).
  rewrite <- HsE in Hrun2.
  assert (Hsz : t_size Mx = t_size E) by congruence.
  destruct (map2_tensor_spec (emul ops) (promote (t_dtype E) (t_dtype Mx)) Hsz
              (valid_reads HvE) HrMx) as (P & c1 & Hrun3 & HsP & HdP & HwP & HrP).
  rewrite <- (binary_same _ _ h (proj1 HvE) HwMx Hsz) in Hrun3.
  assert (HnP : nth_error (t_size P) 1 = Some H) by (now rewrite HsP, HsE).
  destruct (@sum_dim_spec F ops _ P 1 H _ HnP HrP)
    as (SE & c2 & Hrun4 & HsSE & HdSE & HwSE & HrSE).
  assert (HnM : nth_error (t_size Mx) 1 = Some H) by (now rewrite HsMx).
  pose proof (reads_frame [c2] (reads_frame [c1] HrMx)) as HrMx2.
  destruct (@sum_dim_spec F ops _ Mx 1 H _ HnM HrMx2)
    as (MC & c3 & Hrun5 & HsMC & HdMC & HwMC & HrMC).
  destruct (@clamp_min_spec F ops _ MC (f_1e_9 ops) _ HrMC)
    as (SM & c4 & Hrun6 & HsSM & HdSM & HwSM & HrSM).
  assert (Hsz2 : t_size SM = t_size SE).
  { rewrite HsSM, HsMC, HsSE, HsMx, HsP, HsE. reflexivity. }
  pose proof (reads_frame [c4] (reads_frame [c3] HrSE)) as HrSE2.
  destruct (map2_tensor_spec (ediv ops) Float32 Hsz2 HrSE2 HrSM)
    as (S & c5 & Hrun7 & HsS & HdS & HwS & HrS).
  rewrite <- (binary_same _ _ _ HwSE HwSM Hsz2) in Hrun7.
  exists S. eexists. split.
  { unfold mean_pooling, bind. rewrite Hrun1, Hrun2.
    unfold mul, div in *. rewrite Hrun3, Hrun4, Hrun5, Hrun6. exact Hrun7. }
  split; [rewrite HsS, HsSE, HsP, HsE; reflexivity|].
  intros t Ht. rewrite HrS.
  - rewrite HdP, HdMx, HdMu, HsMu. cbn [firstn skipn app removelast unexpand].
    assert (Hidx : (if T =? 1 then 0 else t) = t).
    { destruct (T =? 1) eqn:HT; [apply Nat.eqb_eq in HT; lia | reflexivity]. }
    rewrite Hidx. reflexivity.
  - rewrite HsS, HsSE, HsP, HsE. simpl.
    apply Nat.ltb_lt in Ht. now rewrite Ht.
Qed.

(** A mask that [expand] broadcasts gives the result of the mask written
    out in full: pooling with a mask of shape (Bm, Tm), Bm in {B, 1} and
    Tm in {T, 1}, agrees entry by entry with pooling with the (B, T) mask
    that repeats its row, its column or both. *)
Theorem mean_pooling_broadcast_mask
    (h : heap F) (E M Mfull : tensor) (B T H Bm Tm : nat) :
  valid h E -> valid h M -> valid h Mfull ->
  t_size E = [B; T; H] -> t_size M = [Bm; Tm] -> t_size Mfull = [B; T] ->
  t_dtype Mfull = t_dtype M ->
  (Bm = B \/ Bm = 1) -> (Tm = T \/ Tm = 1) ->
  (forall b t, b < B -> t < T ->
     item h Mfull [b; t] = item h M (mask_index Bm Tm b t)) ->
  exists S h1 S' h1',
    mean_pooling ops E M h = Ok S h1 /\
    mean_pooling ops E Mfull h = Ok S' h1' /\
    t_size S = t_size S' /\
    forall b j, b < B -> j < H -> item h1 S [b; j] = item h1' S' [b; j].
Proof.
  intros HvE HvM HvF HsE HsM HsF Hd HB HT Hfull.
  assert (Hexp : expandableb [Bm; Tm] [B; T] = true).
  { simpl. destruct HB as [-> | ->], HT as [-> | ->];
      rewrite ?Nat.eqb_refl, ?orb_true_r; reflexivity. }
  assert (Hexp' : expandableb [B; T] [B; T] = true)
    by (simpl; now rewrite !Nat.eqb_refl).
  destruct (mean_pooling_spec ops (proj1 HvE) HsE (valid_reads HvE)
              (proj1 HvM) HsM (valid_reads HvM) Hexp)
    as (S & new & Hrun & _ & HsS & _ & _ & Hitem).
  destruct (mean_pooling_spec ops (proj1 HvE) HsE (valid_reads HvE)
              (proj1 HvF) HsF (valid_reads HvF) Hexp')
    as (S' & new' & Hrun' & _ & HsS' & _ & _ & Hitem').
  exists S, (h ++ new), S', (h ++ new').
  split; [exact Hrun|]. split; [exact Hrun'|]. split; [congruence|].
  intros b j Hb Hj. rewrite (Hitem b j Hb Hj), (Hitem' b j Hb Hj), Hd.
  f_equal. apply pooled_entry_ext. intros t Ht. split; [reflexivity|].
  rewrite (mask_index_same Hb Ht). unfold contents.
  now rewrite (Hfull b t Hb Ht).
Qed.

End MorePoolingFacts.

(** * binary32: a value that is not finite, at a padded position *)

Module F32More.
Import F32.

Lemma add_nan_r x : SFadd prec emax x S754_nan = S754_nan.
Proof. now destruct x. Qed.

Lemma fold_nan_stays (e : nat -> spec_float) (m : nat -> Z) l :
  fold_left (fun a t => eadd ops a (emul ops (EF (e t)) (EL (m t)))) l (EF S754_nan)
  = EF S754_nan.
Proof. induction l as [|t l IH]; [reflexivity|]. cbn [fold_left]. exact IH. Qed.

Lemma fold_nan_enters (e : nat -> spec_float) (m : nat -> Z) l t0 :
  In t0 l ->
  SFmul prec emax (e t0) (f_of_long ops (m t0)) = S754_nan ->
  forall acc,
  fold_left (fun a t => eadd ops a (emul ops (EF (e t)) (EL (m t)))) l (EF acc)
  = EF S754_nan.
Proof.
  induction l as [|t l IH]; intros Hin Hnan acc; [destruct Hin|].
  cbn [fold_left]. destruct Hin as [-> | Hin].
  - replace (eadd ops (EF acc) (emul ops (EF (e t0)) (EL (m t0))))
      with (@EF spec_float S754_nan).
    + apply fold_nan_stays.
    + cbn [eadd emul as_float f_add f_mul ops]. rewrite Hnan.
      now rewrite add_nan_r.
  - apply (IH Hin Hnan).
Qed.

(** Multiplying by the mask does not shield the sum: a NaN anywhere in
    column (b, ., j), or an infinity at a position of row b whose mask
    bit is 0, makes entry (b, j) of the result NaN. *)
Theorem mean_pooling_not_finite_poisons
    (h : heap spec_float) (E M : tensor)
    (e : list nat -> spec_float) (m : list nat -> Z) (B T H b t0 j : nat) :
  holds_floats h E e -> t_size E = [B; T; H] ->
  holds_longs h M m -> t_size M = [B; T] ->
  b < B -> t0 < T -> j < H ->
  is_nan (e [b; t0; j]) = true \/
  (is_inf (e [b; t0; j]) = true /\ m [b; t0] = 0%Z) ->
  exists S h',
    mean_pooling ops E M h = Ok S h' /\
    item h' S [b; j] = Some (EF S754_nan).
Proof.
  intros (HwE & HdE & HrE) HsE (HwM & HdM & HrM) HsM Hb Ht0 Hj Hbad.
  assert (Hexp : expandableb [B; T] [B; T] = true)
    by (simpl; now rewrite !Nat.eqb_refl).
  destruct (mean_pooling_spec ops HwE HsE HrE HwM HsM HrM Hexp)
    as (S & new & Hrun & _ & _ & _ & _ & Hitem).
  exists S, (h ++ new). split; [exact Hrun|].
  rewrite (Hitem b j Hb Hj), HdE, HdM. f_equal. unfold pooled_entry.
  rewrite (fold_left_ext_in
             (fun acc t => eadd ops acc (emul ops (EF (e [b; t; j]))
                                           (EL (m (mask_index B T b t)))))
             (fun acc t => eadd ops acc (emul ops (EF (e [b; t; j])) (EL (m [b; t])))));
    [|intros a t Ht; apply in_seq in Ht; rewrite mask_index_same by lia; reflexivity].
  change (ezero ops (promote Float32 Int64)) with (@EF spec_float (S754_zero false)).
  rewrite (@fold_nan_enters (fun t => e [b; t; j]) (fun t => m [b; t]) (seq 0 T) t0).
  - reflexivity.
  - apply in_seq. lia.
  - destruct Hbad as [Hnan | (Hinf & Hzero)].
    + destruct (e [b; t0; j]); try discriminate. reflexivity.
    + rewrite Hzero. destruct (e [b; t0; j]); try discriminate. reflexivity.
Qed.

End F32More.

(** * Building a model and calling it *)

Section ConstructionFacts.

Variable F : Type.
Variable ops : scalar_ops F.
Variable Theta : Type.
Variable AutoModel_from_pretrained : string -> Theta.
Variable hidden_size : Theta -> nat.
Variable AutoTokenizer_from_pretrained : string -> list string -> M F batch.
Variable encoder : Theta -> batch -> M F tensor.
Variable init_weight init_bias : list nat -> F.

Lemma reads_valid (h : heap F) t g : wf t -> reads h t g -> valid h t.
Proof.
  intros Hwf Hr. split; [exact Hwf|]. intros idx Hidx. now rewrite (Hr idx Hidx).
Qed.

Lemma valid_extends (h new : heap F) t : valid h t -> valid (h ++ new) t.
Proof.
  intros Hv. split; [exact (proj1 Hv)|]. intros idx Hidx.
  rewrite (valid_frame new idx Hv). now apply (proj2 Hv).
Qed.

(** On valid inputs of matching leading shape [mean_pooling] returns a
    valid tensor of shape (B, H). *)
Lemma mean_pooling_valid (h : heap F) E M B T H :
  valid h E -> valid h M -> t_size E = [B; T; H] -> t_size M = [B; T] ->
  exists S new,
    mean_pooling ops E M h = Ok S (h ++ new) /\
    t_size S = [B; H] /\ valid (h ++ new) S.
Proof.
  intros HvE HvM HsE HsM.
  assert (Hexp : expandableb [B; T] [B; T] = true)
    by (simpl; now rewrite !Nat.eqb_refl).
  destruct (mean_pooling_spec ops (proj1 HvE) HsE (valid_reads HvE)
              (proj1 HvM) HsM (valid_reads HvM) Hexp)
    as (S & new & Hrun & _ & HsS & _ & HwS & Hitem).
  exists S, new. split; [exact Hrun|]. split; [exact HsS|].
  split; [exact HwS|]. intros idx Hidx. rewrite HsS in Hidx.
  destruct (in_rangeb_2 _ _ _ Hidx) as (b & j & -> & Hb & Hj).
  now rewrite (Hitem b j Hb Hj).
Qed.

(** The embedding notebook's cell, with collaborators that keep their
    contract on shapes: pooling never fails.  The call either passes on
    an error of the tokenizer or the encoder, or returns one vector of
    the encoder's hidden size per sentence. *)
Theorem embedding_cell_shape (model_name : string) (sentences : list string)
    (h : heap F) :
  shaped_collaborators AutoModel_from_pretrained hidden_size
    AutoTokenizer_from_pretrained encoder ->
  match embedding_cell ops AutoModel_from_pretrained AutoTokenizer_from_pretrained
          encoder model_name sentences h with
  | Ok embeddings _ =>
      t_size embeddings = [length sentences;
                           hidden_size (AutoModel_from_pretrained model_name)]
  | Raise e =>
      encode (AutoTokenizer_from_pretrained model_name) encoder
        (AutoModel_from_pretrained model_name) sentences h = Raise e
  end.
Proof.
  intros Hshaped. unfold embedding_cell, SentenceTransformer_init, bind, ret.
  cbn [st_tokenizer st_encoder]. rewrite forward_via_encode.
  specialize (Hshaped model_name sentences h).
  destruct (encode (AutoTokenizer_from_pretrained model_name) encoder
              (AutoModel_from_pretrained model_name) sentences h)
    as [p h'|e]; [|reflexivity].
  destruct Hshaped as (_ & HvE & HvM & T & HsE & HsM).
  destruct (mean_pooling_valid HvE HvM HsE HsM) as (S & new & Hrun & HsS & _).
  now rewrite Hrun.
Qed.

(** The classification notebook's model: the head that [__init__]
    builds always fits the encoder.  With collaborators that keep their
    contract on shapes, neither the pooling nor the linear layer fails;
    the call either passes on an error of the tokenizer or the encoder
    (raised in the store [__init__] leaves), or returns logits of shape
    (number of sentences, num_classes). *)
Theorem classification_cell_shape (model_name : string) (num_classes : nat)
    (sentences : list string) (h : heap F) :
  shaped_collaborators AutoModel_from_pretrained hidden_size
    AutoTokenizer_from_pretrained encoder ->
  match classification_cell ops AutoModel_from_pretrained hidden_size
          AutoTokenizer_from_pretrained encoder init_weight init_bias
          model_name num_classes sentences h with
  | Ok class_logits _ => t_size class_logits = [length sentences; num_classes]
  | Raise e =>
      exists w b,
        encode (AutoTokenizer_from_pretrained model_name) encoder
          (AutoModel_from_pretrained model_name) sentences (h ++ [w; b]) = Raise e
  end.
Proof.
  intros Hshaped.
  set (theta := AutoModel_from_pretrained model_name).
  set (Hd := hidden_size theta).
  set (gw := fun idx : list nat => @EF F (init_weight idx)).
  set (gb := fun idx : list nat => @EF F (init_bias idx)).
  destruct (alloc_reads Float32 [num_classes; Hd] gw h) as (_ & HrW & HwW).
  destruct (alloc_reads Float32 [num_classes] gb
              (h ++ [map gw (indices [num_classes; Hd])])) as (_ & HrB & HwB).
  set (wcells := map gw (indices [num_classes; Hd])) in *.
  set (bcells := map gb (indices [num_classes])) in *.
  set (W := mkTensor Float32 (length h) 0 [num_classes; Hd]
              (contiguous_stride [num_classes; Hd])) in *.
  set (Bi := mkTensor Float32 (length (h ++ [wcells])) 0 [num_classes]
               (contiguous_stride [num_classes])) in *.
  set (h1 := (h ++ [wcells]) ++ [bcells]) in *.
  assert (HvW : valid h1 W)
    by (apply valid_extends; exact (reads_valid HwW HrW)).
  assert (HvB : valid h1 Bi) by (exact (reads_valid HwB HrB)).
  assert (Hcell :
    classification_cell ops AutoModel_from_pretrained hidden_size
      AutoTokenizer_from_pretrained encoder init_weight init_bias
      model_name num_classes sentences h
    = SentenceClassificationTransformer_forward ops
        (AutoTokenizer_from_pretrained model_name) encoder theta W Bi sentences h1)
    by reflexivity.
  rewrite Hcell, classification_forward_unfold. unfold bind.
  rewrite forward_via_encode.
  specialize (Hshaped model_name sentences h1). fold theta in Hshaped.
  destruct (encode (AutoTokenizer_from_pretrained model_name) encoder theta
              sentences h1) as [p h'|e] eqn:Henc.
  - destruct Hshaped as ((new & ->) & HvE & HvM & T & HsE & HsM).
    destruct (mean_pooling_valid HvE HvM HsE HsM) as (S & new2 & Hrun & HsS & HvS).
    rewrite Hrun.
    pose proof (valid_extends new2 (valid_extends new HvW)) as HvW2.
    pose proof (valid_extends new2 (valid_extends new HvB)) as HvB2.
    destruct (@linear_spec F ops _ S W Bi _ _ _ (length sentences) Hd num_classes
                HsS eq_refl eq_refl (valid_reads HvS) (valid_reads HvW2)
                (valid_reads HvB2)) as (L & cells & HL & HsL & _).
    now rewrite HL.
  - exists wcells, bcells. unfold h1 in Henc. rewrite <- app_assoc in Henc.
    exact Henc.
Qed.

End ConstructionFacts.

(** * Stale gradients *)

Section StaleGradients.

Variable F : Type.
Variable ops : scalar_ops F.
Variable Theta : Type.
Variable tokenizer : list string -> M F batch.
Variable encoder : Theta -> batch -> M F tensor.
Variable G O : Type.
Variable classification_loss_fn : tensor -> list Z -> M F tensor.
Variable autograd : Theta -> heap F -> tensor -> G.
Variable accumulate : option G -> G -> G.
Variable adamw : option G -> O -> Theta -> heap F -> O * Theta * heap F.

(** Whatever gradients an earlier [backward] left behind, the training
    step ends the same: its outcome, the updated parameters and the
    gradients it leaves do not depend on them. *)
Theorem training_step_ignores_stale_gradients
    (w b : tensor) (sentences : list string) (labels : list Z)
    (theta : Theta) (h : heap F) (o : O) (trace : list event)
    (g1 g2 : option G) :
  training_step ops tokenizer encoder classification_loss_fn autograd accumulate
    adamw w b sentences labels (mkTrainer theta h g1 o trace)
  = training_step ops tokenizer encoder classification_loss_fn autograd accumulate
      adamw w b sentences labels (mkTrainer theta h g2 o trace).
Proof.
  unfold training_step, tbind, model_call, lift.
  cbn [tr_heap tr_theta tr_grads tr_opt tr_trace].
  destruct (SentenceClassificationTransformer_forward ops tokenizer encoder theta
              w b sentences h) as [logits h1|e]; [|reflexivity].
  cbn [logged tr_heap tr_theta tr_grads tr_opt tr_trace].
  destruct (classification_loss_fn logits labels h1) as [loss h2|e]; [|reflexivity].
  reflexivity.
Qed.

End StaleGradients.

(** * What any successful call leaves in the store *)

Section Freshness.

Variable F : Type.
Variable ops : scalar_ops F.

(** What each operation does to the store. *)
Lemma unsqueeze_store (h h' : heap F) t dim t' :
  unsqueeze t dim h = Ok t' h' -> h' = h /\ t_dtype t' = t_dtype t.
Proof.
  unfold unsqueeze, raise, ret.
  destruct ((dim <? - (Z.of_nat (length (t_size t)) + 1))
            || (Z.of_nat (length (t_size t)) <? dim))%Z; [discriminate|].
  intros [= <- <-]. now split.
Qed.

Lemma expand_store (h h' : heap F) t target t' :
  expand t target h = Ok t' h' -> h' = h /\ t_dtype t' = t_dtype t.
Proof.
  unfold expand, raise, ret.
  destruct (length target <? length (t_size t)); [discriminate|].
  destruct (expand_aligned (t_size t) (t_stride t)
              (skipn (length target - length (t_size t)) target)); [|discriminate].
  intros [= <- <-]. now split.
Qed.

Lemma map2_tensor_store f dt (h h' : heap F) a b t' :
  map2_tensor f dt a b h = Ok t' h' ->
  (exists cells, h' = h ++ [cells]) /\ t_storage t' = length h /\ t_dtype t' = dt.
Proof.
  unfold map2_tensor, alloc.
  destruct (traverse _ (indices (t_size a))) as [cells|]; [|discriminate].
  intros [= <- <-]. split; [now exists cells|]. now split.
Qed.

Lemma binary_store f dt (h h' : heap F) a b t' :
  binary f dt a b h = Ok t' h' ->
  (exists cells, h' = h ++ [cells]) /\ t_storage t' = length h /\ t_dtype t' = dt.
Proof.
  unfold binary, bind, raise.
  destruct (broadcast_shapes (t_size a) (t_size b)) as [sz|]; [|discriminate].
  destruct (expand a sz h) as [a' h1|e] eqn:Ha; [|discriminate].
  destruct (expand_store _ _ _ Ha) as (-> & _).
  destruct (expand b sz h) as [b' h2|e] eqn:Hb; [|discriminate].
  destruct (expand_store _ _ _ Hb) as (-> & _).
  apply map2_tensor_store.
Qed.

Lemma sum_dim_store (h h' : heap F) t d t' :
  sum_dim ops t d h = Ok t' h' -> exists cells, h' = h ++ [cells].
Proof.
  unfold sum_dim, alloc.
  destruct (nth_error (t_size t) d); [|discriminate].
  destruct (traverse _ _) as [cells|]; [|discriminate].
  intros [= _ <-]. now exists cells.
Qed.

Lemma clamp_min_store (h h' : heap F) t m t' :
  clamp_min ops t m h = Ok t' h' -> exists cells, h' = h ++ [cells].
Proof.
  unfold clamp_min, alloc.
  destruct (traverse _ _) as [cells|]; [|discriminate].
  intros [= _ <-]. now exists cells.
Qed.

(** A tensor that can be read in [h] has its storage in [h]. *)
Lemma item_storage (h : heap F) t idx :
  item h t idx <> None -> t_storage t < length h.
Proof.
  unfold item. destruct (in_rangeb idx (t_size t)); [|congruence].
  destruct (nth_error h (t_storage t)) eqn:Hn; [|congruence].
  intros _. apply nth_error_Some. congruence.
Qed.

(** Whenever [mean_pooling] returns, on inputs of any shape, the store
    has only grown, every tensor that could be read before the call
    reads the same after it, and the result shares its storage with none
    of them, the inputs included. *)
Theorem mean_pooling_result_is_fresh (h h' : heap F) (E M S : tensor) :
  mean_pooling ops E M h = Ok S h' ->
  (exists new, h' = h ++ new) /\
  forall t idx, item h t idx <> None ->
    item h' t idx = item h t idx /\ t_storage t <> t_storage S.
Proof.
  unfold mean_pooling, bind. intros Hrun.
  destruct (unsqueeze M (-1) h) as [Mu h0|e] eqn:H1; [|discriminate].
  destruct (unsqueeze_store _ _ _ H1) as (-> & _).
  destruct (expand Mu (t_size E) h) as [Mx h0|e] eqn:H2; [|discriminate].
  destruct (expand_store _ _ _ H2) as (-> & _).
  destruct (mul ops E Mx h) as [P h1|e] eqn:H3; [|discriminate].
  destruct (binary_store _ _ _ _ _ H3) as ((c1 & ->) & _).
  destruct (sum_dim ops P 1 (h ++ [c1])) as [SE h2|e] eqn:H4; [|discriminate].
  destruct (sum_dim_store _ _ _ H4) as (c2 & ->).
  destruct (sum_dim ops Mx 1 ((h ++ [c1]) ++ [c2])) as [MC h3|e] eqn:H5;
    [|discriminate].
  destruct (sum_dim_store _ _ _ H5) as (c3 & ->).
  destruct (clamp_min ops MC (f_1e_9 ops) (((h ++ [c1]) ++ [c2]) ++ [c3]))
    as [SM h4|e] eqn:H6; [|discriminate].
  destruct (clamp_min_store _ _ _ H6) as (c4 & ->).
  unfold div in Hrun.
  destruct (binary_store _ _ _ _ _ Hrun) as ((c5 & ->) & Hst & _).
  assert (Hh : ((((h ++ [c1]) ++ [c2]) ++ [c3]) ++ [c4]) ++ [c5]
               = h ++ [c1; c2; c3; c4; c5]) by (now rewrite <- !app_assoc).
  rewrite Hh. split; [now exists [c1; c2; c3; c4; c5]|].
  intros t idx Hsome. split.
  - destruct (item h t idx) as [x|] eqn:Hx; [|congruence].
    now apply item_frame.
  - apply item_storage in Hsome. rewrite Hst, !length_app. lia.
Qed.

End Freshness.

(** * The further theorems at work on the sample *)

Section StubShapes.

Variable F : Type.
Variable ops : scalar_ops F.

Lemma stubs_shaped :
  shaped_collaborators SampleModel.stub_from_pretrained SampleModel.stub_hidden_size
    (@SampleModel.stub_tokenizer_from_pretrained F) (Sample.stub_encoder ops).
Proof.
  intros name sentences h.
  unfold encode, SampleModel.stub_tokenizer_from_pretrained, Sample.stub_tokenizer,
    Sample.stub_encoder, bind, ret.
  set (B := length sentences).
  set (T := fold_right Nat.max 0 (map String.length sentences)).
  set (theta := SampleModel.stub_from_pretrained name).
  set (ids := map (fun idx => @EL F (Sample.token_id sentences idx)) (indices [B; T])).
  destruct (alloc_reads Int64 [B; T]
              (fun idx => @EL F (Sample.token_mask sentences idx)) (h ++ [ids]))
    as (_ & HrM & HwM).
  destruct (alloc_reads Float32 [B; T; 2] (Sample.stub_hidden ops theta)
              ((h ++ [ids]) ++
               [map (fun idx => @EL F (Sample.token_mask sentences idx)) (indices [B; T])]))
    as (_ & HrE & HwE).
  unfold alloc. cbn [input_ids attention_mask t_size app fst snd].
  split; [eexists; rewrite <- !app_assoc; reflexivity|].
  split; [exact (reads_valid HwE HrE)|].
  split; [exact (reads_valid HwM (reads_frame _ HrM))|].
  exists T. split; reflexivity.
Qed.

End StubShapes.

Module SampleMore.
Import Sample SampleModel.

Ltac each_index H :=
  apply indices_in in H; simpl in H;
  repeat (destruct H as [<- | H];
          [first [reflexivity | vm_compute; discriminate] |]);
  contradiction.

Ltac holds_by_cases :=
  split; [reflexivity | split; [reflexivity | intros idx Hidx; each_index Hidx]].

Ltac valid_by_cases :=
  split; [reflexivity | intros idx Hidx; each_index Hidx].

Lemma mean_pooling_mask_rank_too_high_witness :
  mean_pooling Exact.ops embeddings embeddings store_q = Raise RuntimeError.
Proof.
  apply (@mean_pooling_mask_rank_too_high Q Exact.ops store_q embeddings embeddings).
  - reflexivity.
  - simpl. lia.
Defined.

Lemma mean_pooling_rank_one_index_error_witness :
  mean_pooling Exact.ops vector mask_scalar store_q = Raise IndexError.
Proof.
  apply (@mean_pooling_rank_one_index_error Q Exact.ops store_q vector mask_scalar 12).
  - valid_by_cases.
  - valid_by_cases.
  - reflexivity.
  - reflexivity.
Defined.

Lemma mean_pooling_unbatched_witness :
  exists S h', mean_pooling Exact.ops unbatched mask_flat store_q = Ok S h' /\
               t_size S = [6].
Proof.
  destruct (@mean_pooling_unbatched Q Exact.ops store_q unbatched mask_flat 6 2)
    as (S & h' & Hrun & HsS & _).
  - valid_by_cases.
  - valid_by_cases.
  - reflexivity.
  - reflexivity.
  - exists S, h'. split; [exact Hrun | exact HsS].
Defined.

Lemma mean_pooling_broadcast_mask_witness :
  exists S h1 S' h1',
    mean_pooling Exact.ops embeddings mask_one_row store_q = Ok S h1 /\
    mean_pooling Exact.ops embeddings mask_row_repeated store_q = Ok S' h1' /\
    t_size S = t_size S' /\
    forall b j, b < 2 -> j < 2 -> item h1 S [b; j] = item h1' S' [b; j].
Proof.
  apply (@mean_pooling_broadcast_mask Q Exact.ops store_q embeddings mask_one_row
           mask_row_repeated 2 3 2 1 3).
  - valid_by_cases.
  - valid_by_cases.
  - valid_by_cases.
  - reflexivity.
  - reflexivity.
  - reflexivity.
  - reflexivity.
  - now right.
  - now left.
  - intros b t Hb Ht.
    destruct b as [|[|b]]; [| |lia];
      (destruct t as [|[|[|t]]]; try lia); reflexivity.
Defined.

Lemma mean_pooling_not_finite_poisons_witness :
  exists S h',
    mean_pooling F32.ops embeddings mask store_f_inf = Ok S h' /\
    item h' S [1; 0] = Some (EF S754_nan).
Proof.
  apply (@F32More.mean_pooling_not_finite_poisons store_f_inf embeddings mask
           (float_at F32.ops store_f_inf embeddings) (long_at store_f_inf mask)
           2 3 2 1 2 0).
  - holds_by_cases.
  - reflexivity.
  - holds_by_cases.
  - reflexivity.
  - lia.
  - lia.
  - lia.
  - right. split; reflexivity.
Defined.

Lemma embedding_cell_shape_witness :
  match embedding_cell Exact.ops stub_from_pretrained
          (@stub_tokenizer_from_pretrained Q) (stub_encoder Exact.ops)
          model_name sample_sentences [] with
  | Ok embeddings _ => t_size embeddings = [2; 2]
  | Raise e =>
      encode (@stub_tokenizer_from_pretrained Q model_name) (stub_encoder Exact.ops)
        (stub_from_pretrained model_name) sample_sentences [] = Raise e
  end.
Proof.
  exact (@embedding_cell_shape Q Exact.ops Z stub_from_pretrained stub_hidden_size
           (@stub_tokenizer_from_pretrained Q) (stub_encoder Exact.ops)
           model_name sample_sentences [] (stubs_shaped Exact.ops)).
Defined.

Lemma classification_cell_shape_witness :
  match classification_cell Exact.ops stub_from_pretrained stub_hidden_size
          (@stub_tokenizer_from_pretrained Q) (stub_encoder Exact.ops)
          stub_init_weight stub_init_bias model_name 3 sample_sentences [] with
  | Ok class_logits _ => t_size class_logits = [2; 3]
  | Raise e =>
      exists w b,
        encode (@stub_tokenizer_from_pretrained Q model_name) (stub_encoder Exact.ops)
          (stub_from_pretrained model_name) sample_sentences ([] ++ [w; b]) = Raise e
  end.
Proof.
  exact (@classification_cell_shape Q Exact.ops Z stub_from_pretrained stub_hidden_size
           (@stub_tokenizer_from_pretrained Q) (stub_encoder Exact.ops)
           stub_init_weight stub_init_bias model_name 3 sample_sentences []
           (stubs_shaped Exact.ops)).
Defined.

Lemma mean_pooling_result_is_fresh_witness :
  item (snd pooling_run) embeddings [1; 2; 1] = item store_f embeddings [1; 2; 1] /\
  t_storage embeddings <> t_storage (fst pooling_run).
Proof.
  destruct (@mean_pooling_result_is_fresh spec_float F32.ops store_f (snd pooling_run)
              embeddings mask (fst pooling_run))
    as (_ & Hold).
  - vm_compute. reflexivity.
  - apply (Hold embeddings [1; 2; 1]). vm_compute. discriminate.
Defined.

End SampleMore.
